(** * reupload_jsons_to_Orion.py: the JSON re-upload script

    The script globs [json/*.json] under the working directory, loads every
    match with [json.load] inside a [with open(...)] block, appends the
    loaded objects to a list and hands the list to [Orion.update].

    The development has three parts:
    - the CPython library functions the script calls ([glob.glob], [open]
      in text mode, [json.load]), over a small model of the file system;
    - the script's [main], in a state-and-exception monad that logs what a
      run does to the outside;
    - the properties of [main].

    The broker client [Orion] is not part of the script: it is a parameter
    of [main]. *)

From Stdlib Require Import List String Ascii NArith ZArith Bool Lia.
From Stdlib Require Strings.Byte.
From Stdlib Require Import Sorting.Permutation.
Import ListNotations.

#[local] Set Warnings "-register-all".
Local Open Scope N_scope.

(** ** Python values *)

(** A Python [str] is a sequence of Unicode code points. *)
Definition str := list N.

(** ASCII text of the development as a [str]. *)
Definition of_ascii (s : string) : str :=
  map N_of_ascii (list_ascii_of_string s).

(** The objects [json.load] builds with the default hooks.  A [dict] keeps
    its keys in insertion order, so it is an association list without
    repeated keys.  A [float] is kept as the text handed to [float()]: the
    rounding to binary64 is outside the model. *)
Inductive Document : Type :=
| PyNone
| PyBool (b : bool)
| PyInt (z : Z)
| PyFloat (literal : str)
| PyStr (s : str)
| PyList (items : list Document)
| PyDict (pairs : list (str * Document)).

Fixpoint str_eqb (a b : str) : bool :=
  match a, b with
  | [], [] => true
  | x :: a', y :: b' => (x =? y) && str_eqb a' b'
  | _, _ => false
  end.

(** [d[key] = value]: a present key keeps its place and takes the new
    value, a new key goes last. *)
Fixpoint dict_setitem (d : list (str * Document)) (key : str) (value : Document)
  : list (str * Document) :=
  match d with
  | [] => [(key, value)]
  | (k, v) :: d' =>
      if str_eqb k key then (k, value) :: d'
      else (k, v) :: dict_setitem d' key value
  end.

(** [dict(pairs)]. *)
Definition dict_of_pairs (pairs : list (str * Document)) : list (str * Document) :=
  fold_left (fun d kv => dict_setitem d (fst kv) (snd kv)) pairs [].

(** The exceptions the library calls of the script raise.  An [OSError]
    that has a class of its own ([FileNotFoundError] for ENOENT,
    [PermissionError] for EACCES, ...) goes by that class, the others by
    their error number. *)
Inductive Errno : Type := ELOOP | ENXIO.

Inductive Exception : Type :=
| FileNotFoundError
| NotADirectoryError
| IsADirectoryError
| PermissionError
| OSError (errno : Errno)
| UnicodeDecodeError
| JSONDecodeError
| RecursionError
| ValueError
| OtherError (name : string).

(** How a call ends: it returns, or it raises. *)
Inductive Result (A : Type) : Type :=
| Ok (a : A)
| Raise (e : Exception).

Arguments Ok {A} a.
Arguments Raise {A} e.

(** ** Limits of the interpreter

    Two settings of the running interpreter decide whether [json.loads]
    accepts a text that is JSON by its grammar:
    - [max_str_digits] is [sys.get_int_max_str_digits()]: [int()] refuses a
      text of more digits, and 0 switches the limit off;
    - [max_nesting] is what is left of the recursion limit when the scanner
      starts: the number of arrays and objects inside one another that it
      can enter. *)
Record Limits : Type := {
  max_str_digits : N;
  max_nesting : nat
}.

(** ** [json.loads]: the decoder of the json module

    The functions follow json/decoder.py and json/scanner.py with the default
    settings ([strict=True], no hooks), and the scanner of _json.c, which
    is the one CPython uses, where it guards its recursion.  The scanners of
    strings and of the parts of a number have one way to fail, which is
    [None]; the others return a value and the rest of the text, or stop
    with an exception. *)

Definition is_ws (c : N) : bool :=
  (c =? 32) || (c =? 9) || (c =? 10) || (c =? 13).

(** [WHITESPACE.match(s, end).end()]: the text after the blanks. *)
Fixpoint skip_ws (s : str) : str :=
  match s with
  | c :: r => if is_ws c then skip_ws r else s
  | [] => []
  end.

Definition is_digit (c : N) : bool := (48 <=? c) && (c <=? 57).

(** The longest run of digits at the head of the text, and what follows. *)
Fixpoint span_digits (s : str) : str * str :=
  match s with
  | c :: r =>
      if is_digit c then let (ds, r') := span_digits r in (c :: ds, r')
      else ([], s)
  | [] => ([], [])
  end.

Definition hex_value (c : N) : option N :=
  if is_digit c then Some (c - 48)
  else if (97 <=? c) && (c <=? 102) then Some (c - 87)
  else if (65 <=? c) && (c <=? 70) then Some (c - 55)
  else None.

(** [_decode_uXXXX]: four hexadecimal digits. *)
Definition decode_uXXXX (h1 h2 h3 h4 : N) : option N :=
  match hex_value h1, hex_value h2, hex_value h3, hex_value h4 with
  | Some a, Some b, Some c, Some d => Some (((a * 16 + b) * 16 + c) * 16 + d)
  | _, _, _, _ => None
  end.

(** [BACKSLASH]: the one-character escapes. *)
Definition backslash (c : N) : option N :=
  if c =? 34 then Some 34            (* quote *)
  else if c =? 92 then Some 92       (* backslash *)
  else if c =? 47 then Some 47       (* slash *)
  else if c =? 98 then Some 8        (* b *)
  else if c =? 102 then Some 12      (* f *)
  else if c =? 110 then Some 10      (* n *)
  else if c =? 114 then Some 13      (* r *)
  else if c =? 116 then Some 9       (* t *)
  else None.

Definition is_high_surrogate (u : N) : bool := (55296 <=? u) && (u <=? 56319).
Definition is_low_surrogate (u : N) : bool := (56320 <=? u) && (u <=? 57343).

Definition join_surrogates (hi lo : N) : N :=
  65536 + ((hi - 55296) * 1024 + (lo - 56320)).

Definition prepend (c : N) (r : option (str * str)) : option (str * str) :=
  match r with
  | Some (chars, rest) => Some (c :: chars, rest)
  | None => None
  end.

(** [scanstring(s, end, strict=True)], entered after the opening quote:
    the characters of the string and the text after the closing quote. *)
Fixpoint scanstring (s : str) : option (str * str) :=
  match s with
  | [] => None                                  (* unterminated string *)
  | c :: r =>
      if c =? 34 then Some ([], r)
      else if c =? 92 then
        match r with
        | [] => None
        | e :: r1 =>
            if e =? 117 then
              match r1 with
              | h1 :: h2 :: h3 :: h4 :: r2 =>
                  match decode_uXXXX h1 h2 h3 h4 with
                  | None => None
                  | Some uni =>
                      if is_high_surrogate uni then
                        match r2 with
                        | b1 :: b2 :: r2' =>
                            if (b1 =? 92) && (b2 =? 117) then
                              match r2' with
                              | k1 :: k2 :: k3 :: k4 :: r3 =>
                                  match decode_uXXXX k1 k2 k3 k4 with
                                  | None => None
                                  | Some uni2 =>
                                      if is_low_surrogate uni2
                                      then prepend (join_surrogates uni uni2)
                                             (scanstring r3)
                                      else prepend uni (scanstring r2)
                                  end
                              | _ => None
                              end
                            else prepend uni (scanstring r2)
                        | _ => prepend uni (scanstring r2)
                        end
                      else prepend uni (scanstring r2)
                  end
              | _ => None
              end
            else
              match backslash e with
              | Some ch => prepend ch (scanstring r1)
              | None => None                    (* invalid escape *)
              end
        end
      else if c <? 32 then None                 (* invalid control character *)
      else prepend c (scanstring r)
  end.

Fixpoint strip_prefix (p s : str) : option str :=
  match p, s with
  | [], _ => Some s
  | a :: p', b :: s' => if a =? b then strip_prefix p' s' else None
  | _ :: _, [] => None
  end.

(** [NUMBER_RE], group 1: an optional minus sign, then either a single zero
    or a nonzero digit and more digits.  The matched text and the rest. *)
Definition match_digits (s : str) : option (str * str) :=
  match s with
  | c :: r =>
      if c =? 48 then Some ([48], r)
      else if is_digit c then
        let (ds, r') := span_digits r in Some (c :: ds, r')
      else None
  | [] => None
  end.

Definition match_integer (s : str) : option (str * str) :=
  match s with
  | c :: r => if c =? 45 then prepend 45 (match_digits r) else match_digits s
  | [] => None
  end.

(** Group 2: a dot and at least one digit, or nothing. *)
Definition match_frac (s : str) : str * str :=
  match s with
  | c :: r =>
      if c =? 46 then
        match span_digits r with
        | ([], _) => ([], s)
        | (ds, r') => (46 :: ds, r')
        end
      else ([], s)
  | [] => ([], s)
  end.

(** An optional sign. *)
Definition match_sign (s : str) : str * str :=
  match s with
  | c :: r => if (c =? 45) || (c =? 43) then ([c], r) else ([], s)
  | [] => ([], s)
  end.

(** Group 3: [e] or [E], an optional sign and at least one digit, or
    nothing. *)
Definition match_exp (s : str) : str * str :=
  match s with
  | e :: r =>
      if (e =? 101) || (e =? 69) then
        let (sign, r1) := match_sign r in
        match span_digits r1 with
        | ([], _) => ([], s)
        | (ds, r') => (e :: sign ++ ds, r')
        end
      else ([], s)
  | [] => ([], s)
  end.

(** [int(text)] for a text matched by group 1. *)
Definition parse_int (text : str) : Z :=
  let value ds := Z.of_N (fold_left (fun a c => a * 10 + (c - 48)) ds 0) in
  match text with
  | c :: ds => if c =? 45 then (- value ds)%Z else value text
  | [] => 0%Z
  end.

(** What a scanner of values gives: the value and the text after it, or
    the exception it stops with. *)
Inductive Scan : Type :=
| Found (value : Document) (rest : str)
| Stop (e : Exception).

(** The digits of a text, the sign left out. *)
Definition count_digits (text : str) : N :=
  N.of_nat (List.length (filter is_digit text)).

(** The check of [PyLong_FromString] before it converts: texts of more than
    640 digits are held against the limit of the interpreter, if there is
    one. *)
Definition over_int_limit (max_digits : N) (text : str) : bool :=
  (640 <? count_digits text)
  && (0 <? max_digits) && (max_digits <? count_digits text).

(** The number branch of [_scan_once]: an [int] when the literal has neither
    fraction nor exponent, a [float] otherwise.  [None]: the text does not
    start with a number.  [int()] raises [ValueError] on a literal over the
    limit; [float()] takes any literal. *)
Definition match_number (max_digits : N) (s : str) : option Scan :=
  match match_integer s with
  | None => None
  | Some (integer, r1) =>
      let (frac, r2) := match_frac r1 in
      let (exp, r3) := match_exp r2 in
      match frac, exp with
      | [], [] =>
          if over_int_limit max_digits integer then Some (Stop ValueError)
          else Some (Found (PyInt (parse_int integer)) r3)
      | _, _ => Some (Found (PyFloat (integer ++ frac ++ exp)) r3)
      end
  end.

Definition lit_null := of_ascii "null".
Definition lit_true := of_ascii "true".
Definition lit_false := of_ascii "false".
Definition lit_NaN := of_ascii "NaN".
Definition lit_Infinity := of_ascii "Infinity".
Definition lit_neg_Infinity := of_ascii "-Infinity".

(** The branches of [_scan_once] that take no nested value; when none
    applies there is no value here, which [raw_decode] reports as a
    [JSONDecodeError]. *)
Definition scan_atom (max_digits : N) (s : str) : Scan :=
  match strip_prefix lit_null s with
  | Some r => Found PyNone r
  | None =>
  match strip_prefix lit_true s with
  | Some r => Found (PyBool true) r
  | None =>
  match strip_prefix lit_false s with
  | Some r => Found (PyBool false) r
  | None =>
  match match_number max_digits s with
  | Some res => res
  | None =>
  match strip_prefix lit_NaN s with
  | Some r => Found (PyFloat lit_NaN) r
  | None =>
  match strip_prefix lit_Infinity s with
  | Some r => Found (PyFloat lit_Infinity) r
  | None =>
  match strip_prefix lit_neg_Infinity s with
  | Some r => Found (PyFloat lit_neg_Infinity) r
  | None => Stop JSONDecodeError
  end end end end end end end.

(** [_scan_once], [JSONObject] and [JSONArray].  [object_members] is the
    [while] loop of [JSONObject], entered after the opening quote of a key;
    [array_items] is the loop of [JSONArray], entered at a value.  The
    scanner enters an array or an object only while there is [room] for one
    more level ([Py_EnterRecursiveCall]), and raises [RecursionError] when
    there is none, before it looks at what the bracket holds.  [fuel] bounds
    the recursion of the definition; [fuel_for] never runs out. *)
Fixpoint scan_once (max_digits : N) (fuel room : nat) (s : str) : Scan :=
  match fuel with
  | O => Stop JSONDecodeError
  | S fuel' =>
      match s with
      | [] => Stop JSONDecodeError
      | c :: r =>
          if c =? 34 then
            match scanstring r with
            | Some (chars, r') => Found (PyStr chars) r'
            | None => Stop JSONDecodeError
            end
          else if c =? 123 then
            match room with
            | O => Stop RecursionError
            | S room' =>
                match skip_ws r with
                | c1 :: r' =>
                    if c1 =? 125 then Found (PyDict []) r'
                    else if c1 =? 34
                    then object_members max_digits fuel' room' [] r'
                    else Stop JSONDecodeError
                | [] => Stop JSONDecodeError
                end
            end
          else if c =? 91 then
            match room with
            | O => Stop RecursionError
            | S room' =>
                match skip_ws r with
                | c1 :: r' =>
                    if c1 =? 93 then Found (PyList []) r'
                    else array_items max_digits fuel' room' [] (c1 :: r')
                | [] => Stop JSONDecodeError
                end
            end
          else scan_atom max_digits s
      end
  end
with object_members (max_digits : N) (fuel room : nat)
  (pairs : list (str * Document)) (s : str) : Scan :=
  match fuel with
  | O => Stop JSONDecodeError
  | S fuel' =>
      match scanstring s with
      | None => Stop JSONDecodeError
      | Some (key, r) =>
          match skip_ws r with
          | c1 :: r1 =>
              if c1 =? 58 then
                match scan_once max_digits fuel' room (skip_ws r1) with
                | Stop e => Stop e
                | Found value r2 =>
                    let pairs' := pairs ++ [(key, value)] in
                    match skip_ws r2 with
                    | c2 :: r3 =>
                        if c2 =? 125 then Found (PyDict (dict_of_pairs pairs')) r3
                        else if c2 =? 44 then
                          match skip_ws r3 with
                          | c3 :: r4 =>
                              if c3 =? 34
                              then object_members max_digits fuel' room pairs' r4
                              else Stop JSONDecodeError
                          | [] => Stop JSONDecodeError
                          end
                        else Stop JSONDecodeError
                    | [] => Stop JSONDecodeError
                    end
                end
              else Stop JSONDecodeError
          | [] => Stop JSONDecodeError
          end
      end
  end
with array_items (max_digits : N) (fuel room : nat)
  (values : list Document) (s : str) : Scan :=
  match fuel with
  | O => Stop JSONDecodeError
  | S fuel' =>
      match scan_once max_digits fuel' room s with
      | Stop e => Stop e
      | Found value r =>
          let values' := values ++ [value] in
          match skip_ws r with
          | c1 :: r1 =>
              if c1 =? 93 then Found (PyList values') r1
              else if c1 =? 44
              then array_items max_digits fuel' room values' (skip_ws r1)
              else Stop JSONDecodeError
          | [] => Stop JSONDecodeError
          end
      end
  end.

(** Fuel that the descent cannot use up: every call spends one unit, and no
    two calls in a row are made without a character being consumed. *)
Definition fuel_for (s : str) : nat := 2 * List.length s + 1.

(** [json.loads(s)] for a [str]: a byte order mark is refused, blanks around
    the value are skipped and nothing else may follow it. *)
Definition json_loads (lim : Limits) (s : str) : Result Document :=
  if match s with
     | c :: _ => c =? 65279
     | [] => false
     end
  then Raise JSONDecodeError
  else
    match scan_once (max_str_digits lim) (fuel_for s) (max_nesting lim) (skip_ws s) with
    | Found obj r =>
        match skip_ws r with
        | [] => Ok obj
        | _ :: _ => Raise JSONDecodeError       (* extra data *)
        end
    | Stop e => Raise e
    end.

(** ** Text files: [open(path, 'r')] and [read()]

    Opened without [encoding=], a text file is decoded with the encoding the
    interpreter takes from its environment ([locale.getencoding()], or UTF-8
    in UTF-8 mode), and without [newline=] line ends are translated. *)

Definition bytes := list Byte.byte.

Inductive Encoding : Type := utf_8 | latin_1 | ascii_enc.

Definition is_cont (b : N) : bool := (128 <=? b) && (b <=? 191).

(** The strict UTF-8 decoder, on byte values: overlong forms, surrogates and
    code points above U+10FFFF are errors. *)
Fixpoint utf_8_decode (data : list N) : option str :=
  match data with
  | [] => Some []
  | b0 :: r =>
      if b0 <? 128 then option_map (cons b0) (utf_8_decode r)
      else if b0 <? 194 then None
      else if b0 <? 224 then
        match r with
        | b1 :: r1 =>
            if is_cont b1
            then option_map (cons ((b0 - 192) * 64 + (b1 - 128))) (utf_8_decode r1)
            else None
        | _ => None
        end
      else if b0 <? 240 then
        match r with
        | b1 :: b2 :: r2 =>
            if is_cont b1 && is_cont b2
               && implb (b0 =? 224) (160 <=? b1)
               && implb (b0 =? 237) (b1 <? 160)
            then option_map
                   (cons (((b0 - 224) * 64 + (b1 - 128)) * 64 + (b2 - 128)))
                   (utf_8_decode r2)
            else None
        | _ => None
        end
      else if b0 <? 245 then
        match r with
        | b1 :: b2 :: b3 :: r3 =>
            if is_cont b1 && is_cont b2 && is_cont b3
               && implb (b0 =? 240) (144 <=? b1)
               && implb (b0 =? 244) (b1 <? 144)
            then option_map
                   (cons ((((b0 - 240) * 64 + (b1 - 128)) * 64 + (b2 - 128)) * 64
                          + (b3 - 128)))
                   (utf_8_decode r3)
            else None
        | _ => None
        end
      else None
  end.

Definition ascii_decode (data : list N) : option str :=
  if forallb (fun b => b <? 128) data then Some data else None.

(** [bytes.decode(encoding)]; [None] is [UnicodeDecodeError]. *)
Definition decode (enc : Encoding) (data : bytes) : option str :=
  let values := map Byte.to_N data in
  match enc with
  | utf_8 => utf_8_decode values
  | latin_1 => Some values
  | ascii_enc => ascii_decode values
  end.

(** Universal newlines on input: each of CR LF, CR and LF is read as LF. *)
Fixpoint universal_newlines (s : str) : str :=
  match s with
  | c :: r =>
      if c =? 13 then
        10 :: match r with
              | d :: r' => if d =? 10 then universal_newlines r'
                           else universal_newlines r
              | [] => []
              end
      else c :: universal_newlines r
  | [] => []
  end.

(** ** The file system *)

(** What a name in a directory stands for, as this process meets it: a
    symbolic link that leads somewhere is the entry it leads to, and the
    flags say what the process may do with the entry (for the superuser
    everything).  The entries of a directory are listed in the order
    [os.scandir] yields them; listing a directory takes read permission,
    going through it to one of its entries takes search permission.  A
    special file is a FIFO or a device, and [stream] is what it delivers up
    to its end of file; one that never ends its stream keeps the process
    waiting, and such a run is outside the model.  The file system does not
    change while the script runs. *)
Inductive Entry : Type :=
| RegularFile (readable : bool) (data : bytes)
| Directory (listable searchable : bool) (children : list (string * Entry))
| SpecialFile (readable : bool) (stream : bytes)
| Socket
| DanglingLink
| LinkLoop.

(** The part of the machine the run can see.  The working directory is one
    the process may list and search.  The text encoding is the one the
    interpreter has settled on at start-up; [recursion_room] is the number
    of arrays and objects inside one another that [json.load] can enter
    when [main] calls it (993 for CPython 3.11 started on the script, whose
    recursion limit is 1000).  The script itself reads neither [argv] nor
    [environ]; the interpreter has read its settings from [environ]. *)
Record World : Type := {
  cwd : list (string * Entry);
  preferred_encoding : Encoding;
  recursion_room : nat;
  argv : list string;
  environ : list (string * string)
}.

(** *** The interpreter's limits, from the environment *)

Fixpoint getenv (name : string) (env : list (string * string)) : option string :=
  match env with
  | [] => None
  | (n, v) :: rest => if String.eqb n name then Some v else getenv name rest
  end.

(** [isspace] in the C locale. *)
Definition is_space (c : ascii) : bool :=
  (N_of_ascii c =? 32) || ((9 <=? N_of_ascii c) && (N_of_ascii c <=? 13)).

Fixpoint skip_spaces (l : list ascii) : list ascii :=
  match l with
  | c :: r => if is_space c then skip_spaces r else l
  | [] => []
  end.

Fixpoint digits_value (acc : N) (l : list ascii) : option N :=
  match l with
  | [] => Some acc
  | c :: r =>
      if is_digit (N_of_ascii c)
      then digits_value (acc * 10 + (N_of_ascii c - 48)) r
      else None
  end.

(** [_Py_str_to_int]: [strtol] in base ten (blanks, a sign, digits) that
    has to take the whole text and to fit a C [int]. *)
Definition str_to_int (s : string) : option Z :=
  let l := skip_spaces (list_ascii_of_string s) in
  let (negative, ds) :=
    match l with
    | c :: r =>
        if Ascii.eqb c "-" then (true, r)
        else if Ascii.eqb c "+" then (false, r)
        else (false, l)
    | [] => (false, [])
    end in
  match ds with
  | [] => None
  | _ :: _ =>
      match digits_value 0 ds with
      | None => None
      | Some n =>
          let z := if negative : bool then (- Z.of_N n)%Z else Z.of_N n in
          if ((-2147483648 <=? z) && (z <=? 2147483647))%Z then Some z else None
      end
  end.

(** [sys.get_int_max_str_digits()] in an interpreter started without
    [-X int_max_str_digits] and without [-E] or [-I]
    ([config_init_int_max_str_digits]): the value of PYTHONINTMAXSTRDIGITS,
    and 4300 when the variable is not set or is empty.  On a value that is
    no number, or a number other than 0 below 640, the interpreter does not
    start: no run has such an environment, and the default stands for
    it. *)
Definition int_max_str_digits (env : list (string * string)) : N :=
  match getenv "PYTHONINTMAXSTRDIGITS" env with
  | None => 4300
  | Some v =>
      if String.eqb v "" then 4300
      else
        match str_to_int v with
        | Some z => if ((z =? 0) || (640 <=? z))%Z then Z.to_N z else 4300
        | None => 4300
        end
  end.

(** The limits [json.load] meets in a run. *)
Definition limits (w : World) : Limits :=
  {| max_str_digits := int_max_str_digits (environ w);
     max_nesting := recursion_room w |}.

(** *** Paths *)

Fixpoint lookup (name : string) (entries : list (string * Entry)) : option Entry :=
  match entries with
  | [] => None
  | (n, e) :: rest => if String.eqb n name then Some e else lookup name rest
  end.

Fixpoint split_slash (cur : list ascii) (p : list ascii) : list (list ascii) :=
  match p with
  | [] => [rev cur]
  | c :: p' =>
      if Ascii.eqb c "/" then rev cur :: split_slash [] p'
      else split_slash (c :: cur) p'
  end.

(** Empty components (doubled or trailing slashes) name nothing.  Paths are
    relative to the working directory; the components [.] and [..] are
    outside the model. *)
Definition path_components (path : string) : list string :=
  filter (fun c => negb (String.eqb c ""))
    (map string_of_list_ascii (split_slash [] (list_ascii_of_string path))).

(** Path resolution from a directory; the error is the one the system call
    reports. *)
Fixpoint resolve (dir : list (string * Entry)) (comps : list string)
  : Exception + Entry :=
  match comps with
  | [] => inr (Directory true true dir)
  | name :: rest =>
      match lookup name dir with
      | None => inl FileNotFoundError
      | Some e =>
          match rest with
          | [] => inr e
          | _ :: _ =>
              match e with
              | Directory _ searchable children =>
                  if searchable then resolve children rest
                  else inl PermissionError
              | RegularFile _ _ | SpecialFile _ _ | Socket => inl NotADirectoryError
              | DanglingLink => inl FileNotFoundError
              | LinkLoop => inl (OSError ELOOP)
              end
          end
      end
  end.

Definition entry_at (w : World) (path : string) : Exception + Entry :=
  if String.eqb path "" then inl FileNotFoundError
  else resolve (cwd w) (path_components path).

(** An open text file: the object [open] returns. *)
Record TextIOWrapper : Type := {
  f_name : string;
  f_raw : bytes;
  f_encoding : Encoding
}.

(** [open(path, 'r')].  A regular or a special file opens when the process
    may read it.  A directory the process may read is opened by the system
    and refused by [open] itself; the system refuses the others. *)
Definition open_ (w : World) (path : string) : Exception + TextIOWrapper :=
  match entry_at w path with
  | inl e => inl e
  | inr (RegularFile true data) | inr (SpecialFile true data) =>
      inr {| f_name := path; f_raw := data; f_encoding := preferred_encoding w |}
  | inr (RegularFile false _) | inr (SpecialFile false _) => inl PermissionError
  | inr (Directory listable _ _) =>
      inl (if listable then IsADirectoryError else PermissionError)
  | inr Socket => inl (OSError ENXIO)
  | inr DanglingLink => inl FileNotFoundError
  | inr LinkLoop => inl (OSError ELOOP)
  end.

(** [f.read()]: the whole content as text. *)
Definition read_text (enc : Encoding) (data : bytes) : option str :=
  option_map universal_newlines (decode enc data).

Definition f_read (f : TextIOWrapper) : option str :=
  read_text (f_encoding f) (f_raw f).

(** ** [glob.glob]

    After glob.py and fnmatch.py on a POSIX system ([os.path.normcase] is the
    identity), for a call with the default arguments: not recursive, hidden
    names not included. *)

Definition is_slash (c : ascii) : bool := Ascii.eqb c "/".

Fixpoint span_not_slash (l : list ascii) : list ascii * list ascii :=
  match l with
  | c :: r =>
      if is_slash c then ([], l)
      else let (a, b) := span_not_slash r in (c :: a, b)
  | [] => ([], [])
  end.

Fixpoint drop_slashes (l : list ascii) : list ascii :=
  match l with
  | c :: r => if is_slash c then drop_slashes r else l
  | [] => []
  end.

(** [os.path.split]: the text after the last slash is the tail; the head
    loses its trailing slashes unless it is made of slashes only. *)
Definition os_path_split (p : string) : string * string :=
  let (rtail, rhead) := span_not_slash (rev (list_ascii_of_string p)) in
  let rhead' := match drop_slashes rhead with
                | [] => rhead
                | h => h
                end in
  (string_of_list_ascii (rev rhead'), string_of_list_ascii (rev rtail)).

Definition starts_with_slash (s : string) : bool :=
  match s with
  | String c _ => is_slash c
  | EmptyString => false
  end.

Definition ends_with_slash (s : string) : bool :=
  match rev (list_ascii_of_string s) with
  | c :: _ => is_slash c
  | [] => false
  end.

(** [os.path.join] of two parts. *)
Definition os_path_join (a b : string) : string :=
  if starts_with_slash b then b
  else if String.eqb a "" || ends_with_slash a then a ++ b
  else a ++ "/" ++ b.

Definition is_magic (c : ascii) : bool :=
  Ascii.eqb c "*" || Ascii.eqb c "?" || Ascii.eqb c "[".

Definition has_magic (s : string) : bool :=
  existsb is_magic (list_ascii_of_string s).

(** [_ishidden]: the name starts with a dot. *)
Definition ishidden (name : string) : bool :=
  match name with
  | String c _ => Ascii.eqb c "."
  | EmptyString => false
  end.

(** The matcher [fnmatch.translate] compiles: [*] stands for any text, [?]
    for any one character, everything else for itself.  Character classes
    in brackets are outside the model: a bracket stands for itself, as it
    does in a pattern that never closes it. *)
Fixpoint fnmatch_chars (pat name : list ascii) {struct pat} : bool :=
  match pat with
  | [] => match name with [] => true | _ :: _ => false end
  | p :: pat' =>
      if Ascii.eqb p "*" then
        (fix star (n : list ascii) : bool :=
           fnmatch_chars pat' n
           || match n with
              | [] => false
              | _ :: n' => star n'
              end) name
      else
        match name with
        | [] => false
        | c :: name' => (Ascii.eqb p "?" || Ascii.eqb p c) && fnmatch_chars pat' name'
        end
  end.

Definition fnmatch (name pat : string) : bool :=
  fnmatch_chars (list_ascii_of_string pat) (list_ascii_of_string name).

(** [_listdir]: the names [os.scandir] yields; any [OSError] gives no name,
    that of a directory the process may not list as that of a name that is
    no directory. *)
Definition listdir (w : World) (dirname : string) : list string :=
  match (if String.eqb dirname "" then inr (Directory true true (cwd w))
         else entry_at w dirname) with
  | inr (Directory true _ children) => map fst children
  | _ => []
  end.

(** [_glob1]: the names of a directory that match a pattern with wildcards;
    a hidden name is kept only for a pattern that is hidden itself. *)
Definition glob1 (w : World) (dirname pattern : string) : list string :=
  let names := listdir w dirname in
  let names := if ishidden pattern then names
               else filter (fun x => negb (ishidden x)) names in
  filter (fun name => fnmatch name pattern) names.

Definition lexists (w : World) (path : string) : bool :=
  match entry_at w path with
  | inr _ => true
  | inl _ => false
  end.

Definition isdir (w : World) (path : string) : bool :=
  match entry_at w path with
  | inr (Directory _ _ _) => true
  | _ => false
  end.

(** [_glob0]: a last component without wildcards. *)
Definition glob0 (w : World) (dirname basename : string) : list string :=
  if String.eqb basename "" then
    if isdir w dirname then [basename] else []
  else
    if lexists w (os_path_join dirname basename) then [basename] else [].

(** [glob.glob(pathname)].  A wildcard in the directory part makes
    [_iglob] expand that part first; such patterns are outside the model
    and match nothing here. *)
Definition glob (w : World) (pathname : string) : list string :=
  let (dirname, basename) := os_path_split pathname in
  if negb (has_magic pathname) then
    if String.eqb basename "" then
      if isdir w dirname then [pathname] else []
    else
      if lexists w pathname then [pathname] else []
  else if String.eqb dirname "" then glob1 w "" basename
  else if has_magic dirname then []
  else
    map (os_path_join dirname)
      (if has_magic basename then glob1 w dirname basename
       else glob0 w dirname basename).

(** ** The script

    A run is a computation over a state that logs what the run does to the
    outside: the glob call, every file opened, read and closed, and the call
    of the broker client.  An exception ends the computation it is raised in
    unless a [with] block stands in between, which closes its file first. *)

Inductive Event : Type :=
| EvGlob (pattern : string)
| EvOpen (path : string)                         (* a file handle is acquired *)
| EvOpenError (path : string) (e : Exception)    (* [open] raised *)
| EvRead (path : string)
| EvClose (path : string)                        (* the handle is released *)
| EvUpdate (entities : list Document).

Section Script.

(** The broker client [Orion] is a collaborator of the script: its state and
    what [Orion.update] does to it are left open. *)
Variable Broker : Type.
Variable Orion_update : list Document -> Broker -> Result unit * Broker.

Record State : Type := {
  log : list Event;
  open_files : list string;
  broker : Broker
}.

Definition M (A : Type) : Type := State -> Result A * State.

Definition ret {A : Type} (a : A) : M A := fun st => (Ok a, st).

Definition bind {A B : Type} (m : M A) (k : A -> M B) : M B :=
  fun st =>
    match m st with
    | (Ok a, st') => k a st'
    | (Raise e, st') => (Raise e, st')
    end.

Notation "x <- m ;; k" := (bind m (fun x => k))
  (at level 61, m at next level, right associativity).

Definition record (ev : Event) (st : State) : State :=
  {| log := log st ++ [ev]; open_files := open_files st; broker := broker st |}.

Fixpoint remove_first (name : string) (l : list string) : list string :=
  match l with
  | [] => []
  | x :: l' => if String.eqb x name then l' else x :: remove_first name l'
  end.

(** [glob.glob(pattern)]. *)
Definition glob_glob (w : World) (pattern : string) : M (list string) :=
  fun st => (Ok (glob w pattern), record (EvGlob pattern) st).

(** [open(path, 'r')]. *)
Definition open_file (w : World) (path : string) : M TextIOWrapper :=
  fun st =>
    match open_ w path with
    | inl e => (Raise e, record (EvOpenError path e) st)
    | inr f =>
        (Ok f, {| log := log st ++ [EvOpen path];
                  open_files := path :: open_files st;
                  broker := broker st |})
    end.

(** [f.close()], which the file's [__exit__] calls. *)
Definition f_close (f : TextIOWrapper) : M unit :=
  fun st =>
    (Ok tt, {| log := log st ++ [EvClose (f_name f)];
               open_files := remove_first (f_name f) (open_files st);
               broker := broker st |}).

(** [json.load(f)] is [json.loads(f.read())], in an interpreter with the
    limits [lim]. *)
Definition json_load (lim : Limits) (f : TextIOWrapper) : M Document :=
  fun st =>
    let st' := record (EvRead (f_name f)) st in
    match f_read f with
    | None => (Raise UnicodeDecodeError, st')
    | Some text => (json_loads lim text, st')
    end.

(** [with acquire as r: body]: when [acquire] returns, [release] runs after
    the body, however the body ends, and the body's outcome stands. *)
Definition with_ {R A : Type} (acquire : M R) (release : R -> M unit)
  (body : R -> M A) : M A :=
  fun st =>
    match acquire st with
    | (Raise e, st1) => (Raise e, st1)
    | (Ok r, st1) =>
        let (outcome, st2) := body r st1 in
        match release r st2 with
        | (Ok _, st3) => (outcome, st3)
        | (Raise e, st3) => (Raise e, st3)
        end
    end.

(** [for x in xs: acc = body(acc, x)]. *)
Fixpoint for_ {X A : Type} (xs : list X) (acc : A) (body : A -> X -> M A) : M A :=
  match xs with
  | [] => ret acc
  | x :: xs' => acc' <- body acc x ;; for_ xs' acc' body
  end.

(** [Orion.update(objects)]. *)
Definition update (objects : list Document) : M unit :=
  fun st =>
    let (outcome, broker') := Orion_update objects (broker st) in
    (outcome, {| log := log st ++ [EvUpdate objects];
                 open_files := open_files st;
                 broker := broker' |}).

Definition pattern : string := "json/*.json".

(** The script's [main]. *)
Definition main (w : World) : M unit :=
  jsons <- glob_glob w pattern ;;
  objects <- for_ jsons [] (fun objects json_ =>
    obj <- with_ (open_file w json_) f_close (fun f => json_load (limits w) f) ;;
    ret (objects ++ [obj])) ;;
  update objects.

(** The state a process starts in: nothing logged, no file open. *)
Definition start (b0 : Broker) : State :=
  {| log := []; open_files := []; broker := b0 |}.

(** A run of the process: [main] from the start; its outcome is what the
    interpreter sees at [main()], the last statement of the script. *)
Definition run (w : World) (b0 : Broker) : Result unit * State :=
  main w (start b0).

End Script.

Arguments log {Broker} s.
Arguments open_files {Broker} s.
Arguments broker {Broker} s.

Arguments State Broker : clear implicits.

(** ** What a run shows *)

(** The batches handed to [Orion.update], in the order of the calls. *)
Fixpoint updates (l : list Event) : list (list Document) :=
  match l with
  | [] => []
  | EvUpdate entities :: l' => entities :: updates l'
  | _ :: l' => updates l'
  end.

(** The paths [open] was called on, in the order of the calls. *)
Fixpoint opens (l : list Event) : list string :=
  match l with
  | [] => []
  | EvOpen path :: l' => path :: opens l'
  | EvOpenError path _ :: l' => path :: opens l'
  | _ :: l' => opens l'
  end.

(** The paths whose content was read. *)
Fixpoint reads (l : list Event) : list string :=
  match l with
  | [] => []
  | EvRead path :: l' => path :: reads l'
  | _ :: l' => reads l'
  end.

(** The file at [path] opens, and its content, read as text, is a JSON text
    that [json.loads] accepts in this interpreter, with the value [d]. *)
Definition content_parses (w : World) (path : string) (d : Document) : Prop :=
  exists f text,
    open_ w path = inr f
    /\ f_read f = Some text
    /\ json_loads (limits w) text = Ok d.

(** The names the script's pattern selects in a directory. *)
Definition selected (name : string) : bool :=
  negb (ishidden name) && fnmatch name "*.json".

(** A name a directory entry can have: not empty, no slash. *)
Definition valid_name (name : string) : bool :=
  negb (String.eqb name "")
  && forallb (fun c => negb (is_slash c)) (list_ascii_of_string name).

(** The file at [path] does not load: [open] raises, or the content is not
    text in the encoding in use, or [json.loads] raises on the text (it is
    not JSON, or it is over a limit of the interpreter). *)
Inductive load_failure (w : World) (path : string) : Exception -> Prop :=
| open_fails (e : Exception) :
    open_ w path = inl e -> load_failure w path e
| decode_fails (f : TextIOWrapper) :
    open_ w path = inr f -> f_read f = None ->
    load_failure w path UnicodeDecodeError
| parse_fails (f : TextIOWrapper) (text : str) (e : Exception) :
    open_ w path = inr f -> f_read f = Some text ->
    json_loads (limits w) text = Raise e ->
    load_failure w path e.

(** A log in which a handle, once acquired, is read and then released
    before anything else happens, and nothing is read or released that was
    not acquired. *)
Inductive scoped : list Event -> Prop :=
| scoped_nil : scoped []
| scoped_file (path : string) (l : list Event) :
    scoped l -> scoped (EvOpen path :: EvRead path :: EvClose path :: l)
| scoped_glob (pat : string) (l : list Event) :
    scoped l -> scoped (EvGlob pat :: l)
| scoped_open_error (path : string) (e : Exception) (l : list Event) :
    scoped l -> scoped (EvOpenError path e :: l)
| scoped_update (entities : list Document) (l : list Event) :
    scoped l -> scoped (EvUpdate entities :: l).

(** ** The [with] block and the loop, in closed form *)

(** The outcome of the [with] block on one path. *)
Definition load (w : World) (path : string) : Result Document :=
  match open_ w path with
  | inl e => Raise e
  | inr f =>
      match f_read f with
      | None => Raise UnicodeDecodeError
      | Some text => json_loads (limits w) text
      end
  end.

(** What the [with] block logs on one path. *)
Definition file_events (w : World) (path : string) : list Event :=
  match open_ w path with
  | inl e => [EvOpenError path e]
  | inr _ => [EvOpen path; EvRead path; EvClose path]
  end.

(** Outcome and log of the loop over [paths], entered with [acc]. *)
Fixpoint load_all (w : World) (paths : list string) (acc : list Document)
  : Result (list Document) * list Event :=
  match paths with
  | [] => (Ok acc, [])
  | p :: paths' =>
      match load w p with
      | Ok obj =>
          let (outcome, evs) := load_all w paths' (acc ++ [obj]) in
          (outcome, file_events w p ++ evs)
      | Raise e => (Raise e, file_events w p)
      end
  end.


(** ** Reading a scanner's result through a map on the rest of the text *)

Definition map_rest {A : Type} (g : str -> str) (res : option (A * str))
  : option (A * str) :=
  match res with
  | Some (v, r) => Some (v, g r)
  | None => None
  end.

Definition map_scan (g : str -> str) (res : Scan) : Scan :=
  match res with
  | Found v r => Found v (g r)
  | Stop e => Stop e
  end.

Definition map_snd {A : Type} (g : str -> str) (res : A * str) : A * str :=
  (fst res, g (snd res)).

(** Arithmetic on the lengths of texts. *)
Ltac sizes := cbn [List.length] in *; lia.

(** ** More notions for the properties of the script *)

(** The Document a path loads to (Python's [None] for a path that does not
    load). *)
Definition document_at (w : World) (path : string) : Document :=
  match load w path with
  | Ok d => d
  | Raise _ => PyNone
  end.

(** The entries of a directory that the script's pattern selects. *)
Definition selected_entries (children : list (string * Entry))
  : list (string * Entry) :=
  filter (fun x => selected (fst x)) children.

(** A blank for JSON, as a byte. *)
Definition blank_byte (c : Byte.byte) : bool := is_ws (Byte.to_N c).

(** A byte of the ASCII range. *)
Definition ascii_byte (c : Byte.byte) : bool := Byte.to_N c <? 128.



(** The entries [open] opens for reading. *)
Definition opens_for_reading (entry : Entry) : bool :=
  match entry with
  | RegularFile readable _ | SpecialFile readable _ => readable
  | _ => false
  end.

(** No limit on the digits of an integer, and room for any nesting the text
    can hold: a text the decoder accepts under these limits is JSON by the
    decoder's grammar. *)
Definition no_limits (text : str) : Limits :=
  {| max_str_digits := 0; max_nesting := List.length text |}.

Definition well_formed_json (text : str) : Prop :=
  exists d, json_loads (no_limits text) text = Ok d.

(** [d.get(key)] on the pairs of a [dict]. *)
Fixpoint dict_get (key : str) (d : list (str * Document)) : option Document :=
  match d with
  | [] => None
  | (k, v) :: d' => if str_eqb k key then Some v else dict_get key d'
  end.

(** No key occurs twice. *)
Fixpoint no_repeat (keys : list str) : bool :=
  match keys with
  | [] => true
  | k :: ks => negb (existsb (str_eqb k) ks) && no_repeat ks
  end.

(** No object of the Document, at any depth, has a key twice. *)
Fixpoint keys_unique (d : Document) : bool :=
  match d with
  | PyList items => forallb keys_unique items
  | PyDict pairs =>
      no_repeat (map fst pairs)
      && forallb (fun kv => keys_unique (snd kv)) pairs
  | _ => true
  end.

(** A text that is empty or starts with a blank: what may follow a JSON
    value. *)
Definition blank_head (t : str) : bool :=
  match t with
  | [] => true
  | c :: _ => is_ws c
  end.

(** ** Sample worlds *)

(** JSON text written with apostrophes in place of quotation marks. *)
Definition json_text (s : string) : bytes :=
  map (fun c => if Byte.eqb c Byte.x27 then Byte.x22 else c) (list_byte_of_string s).

(** The room CPython 3.11 has for nested arrays and objects when it runs
    the script with its recursion limit of 1000. *)
Definition default_room : nat := 993.

(** A world with the interpreter's defaults: no variable set, the default
    recursion limit. *)
Definition world_of (entries : list (string * Entry)) (enc : Encoding) : World :=
  {| cwd := entries;
     preferred_encoding := enc;
     recursion_room := default_room;
     argv := [];
     environ := [] |}.

(** The two sensors of the end-to-end scenario. *)
Definition sensors_world : World :=
  world_of
    [("json"%string,
      Directory true true
        [("a.json"%string, RegularFile true (json_text "{'id':'1','type':'Sensor'}"));
         ("b.json"%string, RegularFile true (json_text "{'id':'2','type':'Sensor'}"))])]
    utf_8.

(** A good file, a malformed one, and one more after it. *)
Definition bad_world : World :=
  world_of
    [("json"%string,
      Directory true true
        [("a.json"%string, RegularFile true (json_text "{'id':'1'}"));
         ("bad.json"%string, RegularFile true (json_text "{invalid}"));
         ("c.json"%string, RegularFile true (json_text "{'id':'3'}"))])]
    utf_8.

(** The malformed file, as [open] returns it. *)
Definition bad_file : TextIOWrapper :=
  {| f_name := "json/bad.json";
     f_raw := json_text "{invalid}";
     f_encoding := utf_8 |}.

(** No [json] directory at all. *)
Definition bare_world : World := world_of [] utf_8.

(** A quoted e-acute in UTF-8, read where the encoding in use is UTF-8 and
    where it is Latin-1. *)
Definition accent_entries : list (string * Entry) :=
  [("json"%string,
    Directory true true
      [("a.json"%string,
        RegularFile true [Byte.x22; Byte.xc3; Byte.xa9; Byte.x22])])].

Definition accent_world_latin_1 : World := world_of accent_entries latin_1.

(** A file written with CR LF line ends and an e-acute in UTF-8. *)
Definition crlf_data : bytes :=
  json_text "{'id':'1',"
  ++ [Byte.x0d; Byte.x0a]
  ++ json_text "'name':"
  ++ [Byte.x22; Byte.xc3; Byte.xa9; Byte.x22]
  ++ [Byte.x0d; Byte.x0a]
  ++ json_text "}".

Definition crlf_world : World :=
  world_of
    [("json"%string,
      Directory true true [("a.json"%string, RegularFile true crlf_data)])]
    utf_8.




(** The two sensors among entries the pattern does not select: a text
    file, a hidden file, a directory with a JSON file in it, and a name
    in capitals. *)
Definition cluttered_world : World :=
  world_of
    [("json"%string,
      Directory true true
        [("README.md"%string, RegularFile true (json_text "about"));
         ("a.json"%string, RegularFile true (json_text "{'id':'1','type':'Sensor'}"));
         (".draft.json"%string, RegularFile true (json_text "{broken"));
         ("notes"%string,
          Directory true true [("deep.json"%string, RegularFile true (json_text "{broken"))]);
         ("b.json"%string, RegularFile true (json_text "{'id':'2','type':'Sensor'}"));
         ("C.JSON"%string, RegularFile false (json_text "{}"))])]
    utf_8.


(** The two sensors where the encoding in use is ASCII. *)
Definition sensors_world_ascii : World :=
  world_of (cwd sensors_world) ascii_enc.

(** A good file and a file of blanks only. *)
Definition blank_world : World :=
  world_of
    [("json"%string,
      Directory true true
        [("a.json"%string, RegularFile true (json_text "{'id':'1'}"));
         ("empty.json"%string, RegularFile true [Byte.x20; Byte.x0d; Byte.x0a])])]
    utf_8.

(** A JSON object saved with a UTF-8 byte order mark in front. *)
Definition bom_world : World :=
  world_of
    [("json"%string,
      Directory true true
        [("a.json"%string,
          RegularFile true
            (Byte.xef :: Byte.xbb :: Byte.xbf :: json_text "{'id':'1'}"))])]
    utf_8.


(** An object that gives the same key twice. *)
Definition repeated_key_world : World :=
  world_of
    [("json"%string,
      Directory true true
        [("a.json"%string,
          RegularFile true (json_text "{'id':'1','type':'Sensor','id':'2'}"))])]
    utf_8.

(** A file with blank lines before and after its object, written with
    CR LF line ends. *)
Definition padded_data : bytes :=
  [Byte.x0d; Byte.x0a; Byte.x20]
  ++ json_text "{'id':'1'}"
  ++ [Byte.x0d; Byte.x0a; Byte.x0d; Byte.x0a].

Definition padded_world : World :=
  world_of
    [("json"%string,
      Directory true true [("a.json"%string, RegularFile true padded_data)])]
    latin_1.

(** A file that holds one integer of 4301 digits: JSON, and one digit more
    than [int()] takes by default. *)
Definition long_integer : bytes := repeat Byte.x31 4301.

Definition long_integer_world : World :=
  world_of
    [("json"%string,
      Directory true true [("a.json"%string, RegularFile true long_integer)])]
    utf_8.

(** The same file where the limit on digits is switched off. *)
Definition long_integer_world_unlimited : World :=
  {| cwd := cwd long_integer_world;
     preferred_encoding := utf_8;
     recursion_room := default_room;
     argv := [];
     environ := [("PYTHONINTMAXSTRDIGITS"%string, "0"%string)] |}.

(** A file that holds an integer of 700 digits, in the default environment
    and where the limit on digits is set to its least value. *)
Definition integer_700_entries : list (string * Entry) :=
  [("json"%string,
    Directory true true
      [("a.json"%string, RegularFile true (repeat Byte.x37 700))])].

Definition integer_700_world : World := world_of integer_700_entries utf_8.

Definition integer_700_world_limit_640 : World :=
  {| cwd := integer_700_entries;
     preferred_encoding := utf_8;
     recursion_room := default_room;
     argv := [];
     environ := [("PYTHONINTMAXSTRDIGITS"%string, "640"%string)] |}.

(** A file of 994 arrays inside one another: JSON, and one level more than
    the scanner has room for. *)
Definition deep_array : bytes := repeat Byte.x5b 994 ++ repeat Byte.x5d 994.

Definition deep_array_world : World :=
  world_of
    [("json"%string,
      Directory true true [("a.json"%string, RegularFile true deep_array)])]
    utf_8.

(** A [json] directory the process may search but not list (mode 0311 for
    another user), with a good file in it. *)
Definition unlistable_world : World :=
  world_of
    [("json"%string,
      Directory false true
        [("a.json"%string, RegularFile true (json_text "{'id':'1'}"))])]
    utf_8.

(** A [json] directory the process may list but not search (mode 0444 for
    another user), with a good file in it. *)
Definition unsearchable_world : World :=
  world_of
    [("json"%string,
      Directory true false
        [("a.json"%string, RegularFile true (json_text "{'id':'1'}"))])]
    utf_8.

(** A FIFO into which a writer sends an object and which it then closes,
    and a link to [/dev/null]. *)
Definition fifo_world : World :=
  world_of
    [("json"%string,
      Directory true true
        [("x.json"%string, SpecialFile true (json_text "{'id':'fifo'}"))])]
    utf_8.

Definition null_device_world : World :=
  world_of
    [("json"%string, Directory true true [("null.json"%string, SpecialFile true [])])]
    utf_8.

(** Entries that [open] refuses: a directory the process may not read, a
    socket, a link that leads to itself. *)
Definition refused_world : World :=
  world_of
    [("json"%string,
      Directory true true
        [("a.json"%string, RegularFile true (json_text "{'id':'1'}"));
         ("loop.json"%string, LinkLoop);
         ("sock.json"%string, Socket);
         ("closed.json"%string, Directory false false [])])]
    utf_8.

(** A broker that keeps the batches it was sent. *)
Definition Store : Type := list (list Document).

Definition store_update (objects : list Document) (st : Store) : Result unit * Store :=
  (Ok tt, st ++ [objects]).

Lemma open_name (w : World) (path : string) (f : TextIOWrapper) :
  open_ w path = inr f -> f_name f = path.
Proof.
  unfold open_.
  destruct (entry_at w path) as [e | [[|] data | l x ch | [|] data | | |]];
    intros H; inversion H; reflexivity.
Qed.

Lemma open_encoding (w : World) (path : string) (f : TextIOWrapper) :
  open_ w path = inr f -> f_encoding f = preferred_encoding w.
Proof.
  unfold open_.
  destruct (entry_at w path) as [e | [[|] data | l x ch | [|] data | | |]];
    intros H; inversion H; reflexivity.
Qed.

Lemma remove_first_head (name : string) (l : list string) :
  remove_first name (name :: l) = l.
Proof. simpl. now rewrite String.eqb_refl. Qed.

Arguments remove_first : simpl never.

Lemma load_iff_content (w : World) (path : string) (d : Document) :
  load w path = Ok d <-> content_parses w path d.
Proof.
  unfold load, content_parses. split.
  - destruct (open_ w path) as [e | f]; [discriminate|].
    destruct (f_read f) as [text|] eqn:Hr; [|discriminate].
    intros H. now exists f, text.
  - intros (f & text & -> & -> & H). exact H.
Qed.

Section ScriptFacts.

Variable Broker : Type.
Variable Orion_update : list Document -> Broker -> Result unit * Broker.

Lemma with_block_spec (w : World) (path : string) (st : State Broker) :
  with_ Broker (open_file Broker w path) (f_close Broker)
    (json_load Broker (limits w)) st
  = (load w path,
     {| log := log st ++ file_events w path;
        open_files := open_files st;
        broker := broker st |}).
Proof.
  unfold with_, open_file, load, file_events.
  destruct (open_ w path) as [e | f] eqn:Ho; [reflexivity|].
  apply open_name in Ho.
  unfold json_load, f_close, record.
  rewrite Ho.
  destruct (f_read f) as [text|];
    cbn [log open_files broker];
    rewrite remove_first_head, <- !app_assoc; reflexivity.
Qed.

Lemma for_spec (w : World) (paths : list string) :
  forall (acc : list Document) (st : State Broker),
    for_ Broker paths acc (fun objects json_ =>
      bind Broker
        (with_ Broker (open_file Broker w json_) (f_close Broker)
           (json_load Broker (limits w)))
        (fun obj => ret Broker (objects ++ [obj]))) st
    = (fst (load_all w paths acc),
       {| log := log st ++ snd (load_all w paths acc);
          open_files := open_files st;
          broker := broker st |}).
Proof.
  induction paths as [|p paths IH]; intros acc st; simpl.
  - unfold ret. rewrite app_nil_r. now destruct st.
  - unfold bind at 1. unfold bind at 1. rewrite with_block_spec.
    destruct (load w p) as [obj | e]; simpl.
    + unfold ret at 1. rewrite IH; simpl.
      destruct (load_all w paths (acc ++ [obj])) as [outcome evs]; simpl.
      now rewrite app_assoc.
    + reflexivity.
Qed.

(** A run in closed form: the loop's outcome decides whether the broker is
    called. *)
Lemma run_spec (w : World) (b0 : Broker) :
  run Broker Orion_update w b0
  = match load_all w (glob w pattern) [] with
    | (Ok objects, evs) =>
        (fst (Orion_update objects b0),
         {| log := EvGlob pattern :: evs ++ [EvUpdate objects];
            open_files := [];
            broker := snd (Orion_update objects b0) |})
    | (Raise e, evs) =>
        (Raise e,
         {| log := EvGlob pattern :: evs; open_files := []; broker := b0 |})
    end.
Proof.
  unfold run, start, main. unfold bind at 1. unfold glob_glob at 1.
  unfold bind at 1. rewrite for_spec; simpl.
  destruct (load_all w (glob w pattern) []) as [[objects | e] evs]; simpl.
  - unfold update; simpl. now destruct (Orion_update objects b0).
  - reflexivity.
Qed.

End ScriptFacts.

(** ** Observers and concatenation *)

Lemma updates_app (l1 l2 : list Event) :
  updates (l1 ++ l2) = updates l1 ++ updates l2.
Proof.
  induction l1 as [|ev l1 IH]; [reflexivity|].
  destruct ev; simpl; now rewrite IH.
Qed.

Lemma opens_app (l1 l2 : list Event) :
  opens (l1 ++ l2) = opens l1 ++ opens l2.
Proof.
  induction l1 as [|ev l1 IH]; [reflexivity|].
  destruct ev; simpl; now rewrite IH.
Qed.

Lemma reads_app (l1 l2 : list Event) :
  reads (l1 ++ l2) = reads l1 ++ reads l2.
Proof.
  induction l1 as [|ev l1 IH]; [reflexivity|].
  destruct ev; simpl; now rewrite IH.
Qed.

Lemma updates_file_events (w : World) (paths : list string) :
  updates (flat_map (file_events w) paths) = [].
Proof.
  induction paths as [|p paths IH]; [reflexivity|].
  simpl. rewrite updates_app, IH, app_nil_r.
  unfold file_events. now destruct (open_ w p).
Qed.

Lemma opens_file_events (w : World) (paths : list string) :
  opens (flat_map (file_events w) paths) = paths.
Proof.
  induction paths as [|p paths IH]; [reflexivity|].
  simpl. rewrite opens_app, IH.
  unfold file_events. now destruct (open_ w p).
Qed.

Lemma reads_file_events (w : World) (paths : list string) :
  forall q, In q (reads (flat_map (file_events w) paths)) -> In q paths.
Proof.
  induction paths as [|p paths IH]; intros q; [easy|].
  simpl. rewrite reads_app, in_app_iff. intros [H | H].
  - left. unfold file_events in H. destruct (open_ w p); simpl in H; tauto.
  - right. now apply IH.
Qed.

(** ** The loop on a list of paths *)

Lemma load_all_ok (w : World) (paths : list string) :
  forall acc,
    (forall p, In p paths -> exists d, load w p = Ok d) ->
    exists ds,
      load_all w paths acc = (Ok (acc ++ ds), flat_map (file_events w) paths)
      /\ Forall2 (fun p d => load w p = Ok d) paths ds.
Proof.
  induction paths as [|p paths IH]; intros acc Hall.
  - exists []. simpl. rewrite app_nil_r. now split.
  - destruct (Hall p (or_introl eq_refl)) as [d Hd].
    destruct (IH (acc ++ [d]) (fun q Hq => Hall q (or_intror Hq))) as (ds & Hl & Hf).
    exists (d :: ds). simpl. rewrite Hd, Hl, <- app_assoc. now split; [|constructor].
Qed.

Lemma load_all_raise (w : World) (before : list string) :
  forall acc p after e,
    (forall q, In q before -> exists d, load w q = Ok d) ->
    load w p = Raise e ->
    load_all w (before ++ p :: after) acc
    = (Raise e, flat_map (file_events w) (before ++ [p])).
Proof.
  induction before as [|q before IH]; intros acc p after e Hall Hp.
  - simpl. now rewrite Hp, app_nil_r.
  - destruct (Hall q (or_introl eq_refl)) as [d Hd].
    simpl. rewrite Hd.
    now rewrite (IH (acc ++ [d]) p after e (fun r Hr => Hall r (or_intror Hr)) Hp).
Qed.

(** The loop stops at the first path that does not load, if there is one. *)
Lemma load_all_cases (w : World) (paths : list string) :
  forall acc,
    (exists ds, load_all w paths acc = (Ok (acc ++ ds), flat_map (file_events w) paths)
                /\ Forall2 (fun p d => load w p = Ok d) paths ds)
    \/ (exists before p after e,
          paths = before ++ p :: after
          /\ (forall q, In q before -> exists d, load w q = Ok d)
          /\ load w p = Raise e
          /\ load_all w paths acc
             = (Raise e, flat_map (file_events w) (before ++ [p]))).
Proof.
  induction paths as [|p paths IH]; intros acc.
  - left. exists []. simpl. now rewrite app_nil_r.
  - destruct (load w p) as [d | e] eqn:Hp.
    + destruct (IH (acc ++ [d])) as [(ds & Hl & Hf) | (before & q & after & e & -> & Hb & Hq & Hl)].
      * left. exists (d :: ds). simpl. rewrite Hp, Hl, <- app_assoc.
        now split; [|constructor].
      * right. exists (p :: before), q, after, e. simpl. rewrite Hp, Hl.
        repeat split; trivial.
        intros r [<- | Hr]; [now exists d | now apply Hb].
    + right. exists [], p, paths, e. simpl. rewrite Hp, app_nil_r.
      repeat split; trivial. easy.
Qed.

Lemma load_raise_iff (w : World) (path : string) (e : Exception) :
  load w path = Raise e <-> load_failure w path e.
Proof.
  unfold load. split.
  - destruct (open_ w path) as [e' | f] eqn:Ho.
    + intros H; inversion H; subst. now apply open_fails.
    + destruct (f_read f) as [text|] eqn:Hr.
      * intros H. now apply parse_fails with f text.
      * intros H; inversion H; subst. now apply decode_fails with f.
  - intros [e' Ho | f Ho Hr | f text e' Ho Hr Hj]; rewrite Ho; trivial;
      now rewrite Hr.
Qed.

Lemma loads_of_contents (w : World) (paths : list string) :
  (forall p, In p paths -> exists d, content_parses w p d) ->
  forall p, In p paths -> exists d, load w p = Ok d.
Proof.
  intros H p Hp. destruct (H p Hp) as [d Hd]. exists d.
  now apply load_iff_content.
Qed.

Lemma Forall2_load_content (w : World) (paths : list string) (ds : list Document) :
  Forall2 (fun p d => load w p = Ok d) paths ds ->
  Forall2 (content_parses w) paths ds.
Proof.
  induction 1; constructor; trivial. now apply load_iff_content.
Qed.

Lemma reads_all_loaded (w : World) (paths : list string) :
  (forall p, In p paths -> exists d, load w p = Ok d) ->
  reads (flat_map (file_events w) paths) = paths.
Proof.
  induction paths as [|p paths IH]; intros Hall; [reflexivity|].
  simpl. rewrite reads_app, IH by (intros q Hq; apply Hall; now right).
  destruct (Hall p (or_introl eq_refl)) as [d Hd].
  unfold load in Hd. unfold file_events.
  now destruct (open_ w p).
Qed.

(** ** Scoped logs *)

Lemma scoped_file_events (w : World) (paths : list string) (l : list Event) :
  scoped l -> scoped (flat_map (file_events w) paths ++ l).
Proof.
  intros Hl. induction paths as [|p paths IH]; [exact Hl|].
  simpl. rewrite <- app_assoc. unfold file_events.
  destruct (open_ w p); simpl; now constructor.
Qed.

Lemma scoped_open (l : list Event) :
  scoped l ->
  forall l1 path l2, l = l1 ++ EvOpen path :: l2 ->
  exists l3, l2 = EvRead path :: EvClose path :: l3.
Proof.
  induction 1 as [| p l Hl IH | pat l Hl IH | p e l Hl IH | ents l Hl IH];
    intros l1 path l2 E.
  - now destruct l1.
  - destruct l1 as [|ev1 l1]; simpl in E.
    + inversion E; subst. now exists l.
    + destruct l1 as [|ev2 l1]; [discriminate|].
      destruct l1 as [|ev3 l1]; [discriminate|].
      inversion E; subst. now apply (IH l1).
  - destruct l1 as [|ev1 l1]; [discriminate|].
    inversion E; subst. now apply (IH l1).
  - destruct l1 as [|ev1 l1]; [discriminate|].
    inversion E; subst. now apply (IH l1).
  - destruct l1 as [|ev1 l1]; [discriminate|].
    inversion E; subst. now apply (IH l1).
Qed.

Section RunFacts.

Variable Broker : Type.
Variable Orion_update : list Document -> Broker -> Result unit * Broker.

(** No run leaves a file open, and every log is scoped. *)
Lemma run_scoped (w : World) (b0 : Broker) :
  open_files (snd (run Broker Orion_update w b0)) = []
  /\ scoped (log (snd (run Broker Orion_update w b0))).
Proof.
  rewrite run_spec.
  destruct (load_all_cases w (glob w pattern) [])
    as [(ds & -> & _) | (before & p & after & e & _ & _ & _ & ->)]; simpl.
  - split; [reflexivity|]. constructor.
    apply scoped_file_events. repeat constructor.
  - split; [reflexivity|]. constructor.
    rewrite <- (app_nil_r (flat_map _ _)).
    apply scoped_file_events. constructor.
Qed.

(** A run in which every discovered file loads. *)
Lemma run_all_loaded (w : World) (b0 : Broker) :
  (forall p, In p (glob w pattern) -> exists d, load w p = Ok d) ->
  exists batch,
    Forall2 (fun p d => load w p = Ok d) (glob w pattern) batch
    /\ run Broker Orion_update w b0
       = (fst (Orion_update batch b0),
          {| log := EvGlob pattern :: flat_map (file_events w) (glob w pattern)
                      ++ [EvUpdate batch];
             open_files := [];
             broker := snd (Orion_update batch b0) |}).
Proof.
  intros Hall. rewrite run_spec.
  destruct (load_all_ok w (glob w pattern) [] Hall) as (ds & -> & Hf).
  now exists ds.
Qed.

(** A run in which a discovered file does not load. *)
Lemma run_raise (w : World) (b0 : Broker) (before : list string) (p : string)
  (after : list string) (e : Exception) :
  glob w pattern = before ++ p :: after ->
  (forall q, In q before -> exists d, load w q = Ok d) ->
  load w p = Raise e ->
  run Broker Orion_update w b0
  = (Raise e,
     {| log := EvGlob pattern :: flat_map (file_events w) (before ++ [p]);
        open_files := [];
        broker := b0 |}).
Proof.
  intros Hg Hb Hp. rewrite run_spec, Hg.
  now rewrite (load_all_raise w before [] p after e Hb Hp).
Qed.

End RunFacts.

(** ** Matching and discovery *)

Lemma list_ascii_of_string_app (a c : string) :
  list_ascii_of_string (a ++ c)
  = list_ascii_of_string a ++ list_ascii_of_string c.
Proof. induction a as [|x a IH]; simpl; [reflexivity | now rewrite IH]. Qed.

Lemma string_of_list_ascii_app (a c : list ascii) :
  string_of_list_ascii (a ++ c)
  = (string_of_list_ascii a ++ string_of_list_ascii c)%string.
Proof. induction a as [|x a IH]; simpl; [reflexivity | now rewrite IH]. Qed.

(** A pattern without wildcards matches itself and nothing else. *)
Lemma fnmatch_chars_literal (pat : list ascii) :
  forallb (fun c => negb (Ascii.eqb c "*" || Ascii.eqb c "?")) pat = true ->
  forall name, fnmatch_chars pat name = true <-> name = pat.
Proof.
  induction pat as [|p pat IH]; intros Hlit name; simpl.
  - destruct name; split; easy.
  - simpl in Hlit. apply andb_true_iff in Hlit as [Hp Hlit].
    apply negb_true_iff, orb_false_iff in Hp as [Hstar Hany].
    rewrite Hstar, Hany. destruct name as [|c name]; [split; easy|].
    simpl. rewrite andb_true_iff, Ascii.eqb_eq, (IH Hlit). split.
    + now intros [-> ->].
    + intros H; inversion H; now subst.
Qed.

(** A star stands for any text before a match of the rest. *)
Lemma fnmatch_chars_star (pat name : list ascii) :
  fnmatch_chars ("*"%char :: pat) name = true
  <-> exists stem rest, name = stem ++ rest /\ fnmatch_chars pat rest = true.
Proof.
  simpl. induction name as [|c name IH].
  - rewrite orb_false_r. split.
    + intros H. now exists [], [].
    + intros (stem & rest & E & H).
      symmetry in E. apply app_eq_nil in E as [_ ->]. exact H.
  - rewrite orb_true_iff, IH. split.
    + intros [H | (stem & rest & -> & H)].
      * now exists [], (c :: name).
      * now exists (c :: stem), rest.
    + intros (stem & rest & E & H). destruct stem as [|x stem]; simpl in E.
      * left. now subst.
      * right. inversion E; subst. now exists stem, rest.
Qed.

(** The script's pattern matches the names that end in [.json]. *)
Lemma fnmatch_star_json (name : string) :
  fnmatch name "*.json" = true <-> exists stem, name = (stem ++ ".json")%string.
Proof.
  unfold fnmatch.
  change (list_ascii_of_string "*.json")
    with ("*"%char :: list_ascii_of_string ".json").
  rewrite fnmatch_chars_star. split.
  - intros (stem & rest & E & H).
    apply fnmatch_chars_literal in H; [|reflexivity]. subst rest.
    exists (string_of_list_ascii stem).
    rewrite <- (string_of_list_ascii_of_string name), E.
    rewrite string_of_list_ascii_app.
    now rewrite (string_of_list_ascii_of_string ".json").
  - intros (stem & ->).
    exists (list_ascii_of_string stem), (list_ascii_of_string ".json").
    split; [apply list_ascii_of_string_app|].
    now apply fnmatch_chars_literal.
Qed.

Lemma filter_filter {A : Type} (f g : A -> bool) (l : list A) :
  filter f (filter g l) = filter (fun x => g x && f x) l.
Proof.
  induction l as [|x l IH]; [reflexivity|]. simpl.
  destruct (g x); simpl; [destruct (f x)|]; now rewrite IH.
Qed.

Lemma entry_at_json (w : World) :
  entry_at w "json"
  = match lookup "json" (cwd w) with
    | None => inl FileNotFoundError
    | Some e => inr e
    end.
Proof. reflexivity. Qed.

(** Discovery in closed form: the selected names of the directory [json],
    in the order of the directory, each joined to the directory's name. *)
Lemma glob_pattern_eq (w : World) :
  glob w pattern
  = match lookup "json" (cwd w) with
    | Some (Directory true _ children) =>
        map (os_path_join "json") (filter selected (map fst children))
    | _ => []
    end.
Proof.
  unfold glob, pattern.
  change (os_path_split "json/*.json") with ("json"%string, "*.json"%string).
  change (has_magic "json/*.json") with true.
  change (has_magic "json") with false.
  change (has_magic "*.json") with true.
  change (String.eqb "json" "") with false.
  cbv iota beta. simpl negb. cbv iota.
  unfold glob1, listdir.
  change (String.eqb "json" "") with false. cbv iota.
  rewrite entry_at_json.
  change (ishidden "*.json") with false. cbv iota.
  destruct (lookup "json" (cwd w)) as [[? ? | [|] ? children | ? ? | | |] |];
    try reflexivity.
  now rewrite filter_filter.
Qed.

Lemma selected_iff (name : string) :
  selected name = true
  <-> ishidden name = false /\ exists stem, name = (stem ++ ".json")%string.
Proof.
  unfold selected.
  now rewrite andb_true_iff, negb_true_iff, fnmatch_star_json.
Qed.


(** ** Paths below [json] *)

Lemma split_slash_no_slash (l cur : list ascii) :
  forallb (fun c => negb (is_slash c)) l = true ->
  split_slash cur l = [rev cur ++ l].
Proof.
  revert cur. induction l as [|c l IH]; intros cur H; simpl.
  - now rewrite app_nil_r.
  - simpl in H. apply andb_true_iff in H as [Hc Hl].
    apply negb_true_iff in Hc. unfold is_slash in Hc. rewrite Hc.
    rewrite (IH (c :: cur) Hl). simpl. now rewrite <- app_assoc.
Qed.

Lemma valid_name_join (name : string) :
  valid_name name = true ->
  os_path_join "json" name = ("json/" ++ name)%string.
Proof.
  unfold valid_name, os_path_join. intros H.
  apply andb_true_iff in H as [_ H].
  destruct name as [|c name]; [reflexivity|].
  simpl in H. apply andb_true_iff in H as [Hc _].
  apply negb_true_iff in Hc. simpl. now rewrite Hc.
Qed.

Lemma path_components_child (name : string) :
  valid_name name = true ->
  path_components ("json/" ++ name) = ["json"%string; name].
Proof.
  unfold valid_name, path_components. intros H.
  apply andb_true_iff in H as [Hne Hns].
  simpl. rewrite (split_slash_no_slash _ [] Hns). simpl.
  rewrite string_of_list_ascii_of_string, Hne. reflexivity.
Qed.

Lemma entry_at_child (w : World) (name : string) :
  valid_name name = true ->
  entry_at w (os_path_join "json" name)
  = match lookup "json" (cwd w) with
    | None => inl FileNotFoundError
    | Some (Directory _ true children) =>
        match lookup name children with
        | None => inl FileNotFoundError
        | Some e => inr e
        end
    | Some (Directory _ false _) => inl PermissionError
    | Some (RegularFile _ _) | Some (SpecialFile _ _) | Some Socket =>
        inl NotADirectoryError
    | Some DanglingLink => inl FileNotFoundError
    | Some LinkLoop => inl (OSError ELOOP)
    end.
Proof.
  intros H. rewrite (valid_name_join name H). unfold entry_at.
  rewrite (path_components_child name H). simpl.
  now destruct (lookup "json" (cwd w)) as [[? ? | ? [|] children | ? ? | | |] |].
Qed.


(** An entry that opens for reading gives its bytes to the reader. *)
Lemma open_for_reading (w : World) (path : string) (entry : Entry) :
  entry_at w path = inr entry ->
  opens_for_reading entry = true ->
  exists data,
    (entry = RegularFile true data \/ entry = SpecialFile true data)
    /\ open_ w path
       = inr {| f_name := path; f_raw := data; f_encoding := preferred_encoding w |}.
Proof.
  unfold open_. intros -> H.
  destruct entry as [[|] data | l x children | [|] data | | |];
    try discriminate; exists data; split; auto.
Qed.

(** ** Worlds that agree on the discovered files *)

Lemma load_ext (w1 w2 : World) (paths : list string) :
  (forall p, In p paths -> entry_at w1 p = entry_at w2 p) ->
  preferred_encoding w1 = preferred_encoding w2 ->
  limits w1 = limits w2 ->
  forall p, In p paths ->
    load w1 p = load w2 p /\ file_events w1 p = file_events w2 p.
Proof.
  intros He Henc Hlim p Hp. unfold load, file_events, open_.
  rewrite (He p Hp), Henc, Hlim. split; reflexivity.
Qed.

Lemma load_all_ext (w1 w2 : World) (paths : list string) :
  forall acc,
    (forall p, In p paths ->
       load w1 p = load w2 p /\ file_events w1 p = file_events w2 p) ->
    load_all w1 paths acc = load_all w2 paths acc.
Proof.
  induction paths as [|p paths IH]; intros acc H; [reflexivity|].
  simpl. destruct (H p (or_introl eq_refl)) as [-> ->].
  destruct (load w2 p) as [d | e]; [|reflexivity].
  now rewrite (IH (acc ++ [d]) (fun q Hq => H q (or_intror Hq))).
Qed.

Lemma Forall2_In_l {A B : Type} (R : A -> B -> Prop) (xs : list A) (ys : list B) :
  Forall2 R xs ys -> forall x, In x xs -> exists y, R x y.
Proof.
  induction 1 as [|x y xs ys Hxy _ IH]; intros a Ha; [easy|].
  destruct Ha as [<- | Ha]; [now exists y | now apply IH].
Qed.

Section RaiseFacts.

Variable Broker : Type.
Variable Orion_update : list Document -> Broker -> Result unit * Broker.

(** One discovered file that does not load is enough for the run to end
    with an exception before the broker is called. *)
Lemma run_raises_if_some_fails (w : World) (b0 : Broker) (p : string) (e : Exception) :
  In p (glob w pattern) ->
  load w p = Raise e ->
  (exists e', fst (run Broker Orion_update w b0) = Raise e')
  /\ updates (log (snd (run Broker Orion_update w b0))) = []
  /\ broker (snd (run Broker Orion_update w b0)) = b0.
Proof.
  intros Hin Hp. rewrite run_spec.
  destruct (load_all_cases w (glob w pattern) [])
    as [(ds & _ & Hf) | (before & q & after & e' & _ & _ & _ & ->)].
  - destruct (Forall2_In_l _ _ _ Hf p Hin) as [d Hd]. congruence.
  - simpl. rewrite updates_file_events. split; [now exists e'|now split].
Qed.

End RaiseFacts.

(** ** Line ends and JSON text

    Reading a file in text mode turns CR LF and CR into LF.  A text that
    [json.loads] accepts has such characters between its tokens only, where
    they are blanks, so the translation does not change the value. *)

Lemma universal_newlines_cons (c : N) (r : str) :
  c <> 13 -> universal_newlines (c :: r) = c :: universal_newlines r.
Proof.
  intros H. simpl. now destruct (N.eqb_spec c 13).
Qed.

Lemma universal_newlines_cr (r : str) :
  exists x, universal_newlines (13 :: r) = 10 :: x.
Proof. simpl. now eexists. Qed.

Lemma universal_newlines_cr_lf (r : str) :
  universal_newlines (13 :: 10 :: r) = 10 :: universal_newlines r.
Proof. reflexivity. Qed.

Lemma universal_newlines_cr_other (d : N) (r : str) :
  d <> 10 ->
  universal_newlines (13 :: d :: r) = 10 :: universal_newlines (d :: r).
Proof.
  intros H. change (universal_newlines (13 :: d :: r))
    with (10 :: if d =? 10 then universal_newlines r
                else universal_newlines (d :: r)).
  now destruct (N.eqb_spec d 10).
Qed.

Arguments universal_newlines : simpl never.

Lemma skip_ws_universal_newlines_le (n : nat) :
  forall s, (List.length s <= n)%nat ->
    skip_ws (universal_newlines s) = universal_newlines (skip_ws s).
Proof.
  induction n as [|n IH]; intros s Hn.
  - destruct s; [reflexivity | simpl in Hn; lia].
  - destruct s as [|c r]; [reflexivity|]. simpl in Hn.
    destruct (N.eqb_spec c 13) as [-> | Hc].
    + change (skip_ws (13 :: r)) with (skip_ws r).
      destruct r as [|d r']; [reflexivity|]. simpl in Hn.
      destruct (N.eqb_spec d 10) as [-> | Hd].
      * rewrite universal_newlines_cr_lf.
        change (skip_ws (10 :: ?x)) with (skip_ws x). apply IH. lia.
      * rewrite (universal_newlines_cr_other d r' Hd).
        change (skip_ws (10 :: ?x)) with (skip_ws x).
        apply (IH (d :: r')). simpl. lia.
    + rewrite (universal_newlines_cons c r Hc). simpl skip_ws.
      destruct (is_ws c).
      * apply IH. lia.
      * now rewrite (universal_newlines_cons c r Hc).
Qed.

Lemma skip_ws_universal_newlines (s : str) :
  skip_ws (universal_newlines s) = universal_newlines (skip_ws s).
Proof. now apply (skip_ws_universal_newlines_le (List.length s)). Qed.

Lemma span_digits_universal_newlines (s : str) :
  span_digits (universal_newlines s) = map_snd universal_newlines (span_digits s).
Proof.
  induction s as [|c r IH]; [reflexivity|].
  destruct (N.eqb_spec c 13) as [-> | Hc].
  - destruct (universal_newlines_cr r) as [x Hx]. rewrite Hx. simpl span_digits.
    now rewrite <- Hx.
  - rewrite (universal_newlines_cons c r Hc). simpl span_digits.
    destruct (is_digit c).
    + rewrite IH. now destruct (span_digits r).
    + unfold map_snd. simpl. now rewrite (universal_newlines_cons c r Hc).
Qed.

(** A text without line ends is a prefix of a text exactly when it is a
    prefix of the translated text. *)
Lemma strip_prefix_universal_newlines (lit : str) :
  forallb (fun a => negb (a =? 13) && negb (a =? 10)) lit = true ->
  forall s,
    strip_prefix lit (universal_newlines s)
    = option_map universal_newlines (strip_prefix lit s).
Proof.
  induction lit as [|a lit IH]; intros Hlit s; [reflexivity|].
  simpl in Hlit. apply andb_true_iff in Hlit as [Ha Hlit].
  apply andb_true_iff in Ha as [Ha13 Ha10].
  apply negb_true_iff in Ha13, Ha10.
  destruct s as [|c r]; [reflexivity|].
  destruct (N.eqb_spec c 13) as [-> | Hc].
  - destruct (universal_newlines_cr r) as [x ->]. simpl.
    now rewrite Ha13, Ha10.
  - rewrite (universal_newlines_cons c r Hc). simpl.
    destruct (a =? c); [now apply IH | reflexivity].
Qed.

Lemma match_digits_universal_newlines (s : str) :
  match_digits (universal_newlines s) = map_rest universal_newlines (match_digits s).
Proof.
  destruct s as [|c r]; [reflexivity|].
  destruct (N.eqb_spec c 13) as [-> | Hc].
  - now destruct (universal_newlines_cr r) as [x ->].
  - rewrite (universal_newlines_cons c r Hc). simpl.
    destruct (c =? 48); [reflexivity|].
    destruct (is_digit c); [|reflexivity].
    rewrite span_digits_universal_newlines. now destruct (span_digits r).
Qed.

Lemma match_integer_universal_newlines (s : str) :
  match_integer (universal_newlines s) = map_rest universal_newlines (match_integer s).
Proof.
  destruct s as [|c r]; [reflexivity|].
  destruct (N.eqb_spec c 13) as [-> | Hc].
  - now destruct (universal_newlines_cr r) as [x ->].
  - unfold match_integer. rewrite (universal_newlines_cons c r Hc).
    destruct (c =? 45).
    + rewrite match_digits_universal_newlines.
      now destruct (match_digits r) as [[ds r']|].
    + rewrite <- (universal_newlines_cons c r Hc).
      apply match_digits_universal_newlines.
Qed.

Lemma match_frac_universal_newlines (s : str) :
  match_frac (universal_newlines s) = map_snd universal_newlines (match_frac s).
Proof.
  destruct s as [|c r]; [reflexivity|].
  destruct (N.eqb_spec c 13) as [-> | Hc].
  - destruct (universal_newlines_cr r) as [x Hx]. rewrite Hx. simpl.
    unfold map_snd. simpl. now rewrite <- Hx.
  - rewrite (universal_newlines_cons c r Hc). simpl.
    destruct (c =? 46).
    + rewrite span_digits_universal_newlines.
      destruct (span_digits r) as [[|d ds] r']; unfold map_snd; simpl;
        now rewrite ?(universal_newlines_cons c r Hc).
    + unfold map_snd. simpl. now rewrite (universal_newlines_cons c r Hc).
Qed.

Lemma match_sign_universal_newlines (s : str) :
  match_sign (universal_newlines s) = map_snd universal_newlines (match_sign s).
Proof.
  destruct s as [|c r]; [reflexivity|].
  destruct (N.eqb_spec c 13) as [-> | Hc].
  - destruct (universal_newlines_cr r) as [x Hx]. rewrite Hx. simpl.
    unfold map_snd. simpl. now rewrite <- Hx.
  - rewrite (universal_newlines_cons c r Hc). simpl.
    destruct ((c =? 45) || (c =? 43)); unfold map_snd; simpl;
      now rewrite ?(universal_newlines_cons c r Hc).
Qed.

Lemma match_exp_universal_newlines (s : str) :
  match_exp (universal_newlines s) = map_snd universal_newlines (match_exp s).
Proof.
  destruct s as [|c r]; [reflexivity|].
  destruct (N.eqb_spec c 13) as [-> | Hc].
  - destruct (universal_newlines_cr r) as [x Hx]. rewrite Hx. simpl.
    unfold map_snd. simpl. now rewrite <- Hx.
  - rewrite (universal_newlines_cons c r Hc). simpl.
    destruct ((c =? 101) || (c =? 69)).
    + rewrite match_sign_universal_newlines.
      destruct (match_sign r) as [sign r1]. unfold map_snd at 1. simpl.
      rewrite span_digits_universal_newlines.
      destruct (span_digits r1) as [[|d ds] r']; unfold map_snd; simpl;
        now rewrite ?(universal_newlines_cons c r Hc).
    + unfold map_snd. simpl. now rewrite (universal_newlines_cons c r Hc).
Qed.

Lemma match_number_universal_newlines (m : N) (s : str) :
  match_number m (universal_newlines s)
  = option_map (map_scan universal_newlines) (match_number m s).
Proof.
  unfold match_number. rewrite match_integer_universal_newlines.
  destruct (match_integer s) as [[integer r1]|]; [|reflexivity]. simpl.
  rewrite match_frac_universal_newlines.
  destruct (match_frac r1) as [frac r2]. unfold map_snd at 1. simpl.
  rewrite match_exp_universal_newlines.
  destruct (match_exp r2) as [exp r3]. unfold map_snd. simpl.
  destruct frac; [destruct exp|]; try reflexivity.
  now destruct (over_int_limit m integer).
Qed.

Lemma scan_atom_universal_newlines (m : N) (s : str) :
  scan_atom m (universal_newlines s) = map_scan universal_newlines (scan_atom m s).
Proof.
  unfold scan_atom.
  rewrite !strip_prefix_universal_newlines by reflexivity.
  rewrite match_number_universal_newlines.
  destruct (strip_prefix lit_null s); [reflexivity|].
  destruct (strip_prefix lit_true s); [reflexivity|].
  destruct (strip_prefix lit_false s); [reflexivity|].
  destruct (match_number m s) as [res|]; [reflexivity|].
  destruct (strip_prefix lit_NaN s); [reflexivity|].
  destruct (strip_prefix lit_Infinity s); [reflexivity|].
  destruct (strip_prefix lit_neg_Infinity s); reflexivity.
Qed.

Lemma prepend_some (x : N) (res : option (str * str)) (chars r : str) :
  prepend x res = Some (chars, r) ->
  exists chars', res = Some (chars', r) /\ chars = x :: chars'.
Proof.
  destruct res as [[chars' r']|]; simpl; [|discriminate].
  intros H; inversion H; subst. now exists chars'.
Qed.

Lemma hex_value_not_cr (c v : N) : hex_value c = Some v -> c <> 13.
Proof. intros H ->. discriminate. Qed.

Lemma decode_uXXXX_not_cr (h1 h2 h3 h4 u : N) :
  decode_uXXXX h1 h2 h3 h4 = Some u ->
  h1 <> 13 /\ h2 <> 13 /\ h3 <> 13 /\ h4 <> 13.
Proof.
  unfold decode_uXXXX.
  destruct (hex_value h1) eqn:E1; [|discriminate].
  destruct (hex_value h2) eqn:E2; [|discriminate].
  destruct (hex_value h3) eqn:E3; [|discriminate].
  destruct (hex_value h4) eqn:E4; [|discriminate].
  intros _. repeat split; eapply hex_value_not_cr; eassumption.
Qed.

Lemma scanstring_universal_newlines_le (n : nat) :
  forall s chars r, (List.length s <= n)%nat ->
    scanstring s = Some (chars, r) ->
    scanstring (universal_newlines s) = Some (chars, universal_newlines r).
Proof.
  induction n as [|n IH]; intros s chars r Hn H.
  - destruct s; [discriminate | simpl in Hn; lia].
  - destruct s as [|c s1]; [discriminate|]. simpl in Hn.
    destruct (N.eqb_spec c 13) as [-> | Hc]; [discriminate|].
    rewrite (universal_newlines_cons c s1 Hc).
    simpl in H |- *.
    destruct (c =? 34). { inversion H; reflexivity. }
    destruct (c =? 92).
    + destruct s1 as [|e s2]; [discriminate|]. simpl in Hn.
      assert (He : e <> 13) by (intros ->; discriminate).
      rewrite (universal_newlines_cons e s2 He).
      destruct (e =? 117).
      * destruct s2 as [|h1 [|h2 [|h3 [|h4 s3]]]]; try discriminate.
        simpl in Hn.
        destruct (decode_uXXXX h1 h2 h3 h4) as [uni|] eqn:Ed; [|discriminate].
        destruct (decode_uXXXX_not_cr _ _ _ _ _ Ed) as (H1 & H2 & H3 & H4).
        rewrite (universal_newlines_cons h1 _ H1), (universal_newlines_cons h2 _ H2),
          (universal_newlines_cons h3 _ H3), (universal_newlines_cons h4 _ H4).
        rewrite Ed.
        assert (F : forall chars r,
                   prepend uni (scanstring s3) = Some (chars, r) ->
                   prepend uni (scanstring (universal_newlines s3))
                   = Some (chars, universal_newlines r)).
        { intros chars0 r0 H0. apply prepend_some in H0 as (chars' & Hs & ->).
          rewrite (IH s3 chars' r0 ltac:(lia) Hs). reflexivity. }
        destruct (is_high_surrogate uni); [|now apply F].
        destruct s3 as [|b1 s4]; [discriminate|].
        destruct (N.eqb_spec b1 13) as [-> | Hb1].
        { exfalso. destruct s4 as [|b2 s4']; simpl in H; discriminate. }
        destruct s4 as [|b2 s5].
        { specialize (F _ _ H).
          rewrite (universal_newlines_cons b1 [] Hb1) in F |- *.
          change (universal_newlines []) with (@nil N) in F |- *.
          exact F. }
        simpl in Hn.
        destruct (N.eqb_spec b2 13) as [-> | Hb2].
        { change (13 =? 117) with false in H. rewrite andb_false_r in H.
          specialize (F _ _ H).
          rewrite (universal_newlines_cons b1 _ Hb1) in F |- *.
          destruct (universal_newlines_cr s5) as [x Hx]. rewrite Hx in F |- *.
          cbv beta iota. change (10 =? 117) with false.
          rewrite andb_false_r. exact F. }
        rewrite (universal_newlines_cons b1 _ Hb1), (universal_newlines_cons b2 _ Hb2)
          in F |- *.
        cbv beta iota.
        destruct ((b1 =? 92) && (b2 =? 117)); [|now apply F].
        destruct s5 as [|k1 [|k2 [|k3 [|k4 s6]]]]; try discriminate.
        simpl in Hn.
        destruct (decode_uXXXX k1 k2 k3 k4) as [uni2|] eqn:Ed2; [|discriminate].
        destruct (decode_uXXXX_not_cr _ _ _ _ _ Ed2) as (K1 & K2 & K3 & K4).
        rewrite (universal_newlines_cons k1 _ K1), (universal_newlines_cons k2 _ K2),
          (universal_newlines_cons k3 _ K3), (universal_newlines_cons k4 _ K4)
          in F |- *.
        cbv beta iota. rewrite Ed2.
        destruct (is_low_surrogate uni2); [|now apply F].
        apply prepend_some in H as (chars' & Hs & ->).
        rewrite (IH s6 chars' r ltac:(lia) Hs). reflexivity.
      * destruct (backslash e); [|discriminate].
        apply prepend_some in H as (chars' & Hs & ->).
        rewrite (IH s2 chars' r ltac:(lia) Hs). reflexivity.
    + destruct (c <? 32); [discriminate|].
      apply prepend_some in H as (chars' & Hs & ->).
      rewrite (IH s1 chars' r ltac:(lia) Hs). reflexivity.
Qed.

Lemma scanstring_universal_newlines (s chars r : str) :
  scanstring s = Some (chars, r) ->
  scanstring (universal_newlines s) = Some (chars, universal_newlines r).
Proof. now apply (scanstring_universal_newlines_le (List.length s)). Qed.

(** The descent on a translated text: the same value, and the translated
    rest. *)
Lemma scan_universal_newlines (m : N) (fuel : nat) :
  (forall room s v r,
     scan_once m fuel room s = Found v r ->
     scan_once m fuel room (universal_newlines s) = Found v (universal_newlines r))
  /\ (forall room pairs s v r,
        object_members m fuel room pairs s = Found v r ->
        object_members m fuel room pairs (universal_newlines s)
        = Found v (universal_newlines r))
  /\ (forall room values s v r,
        array_items m fuel room values s = Found v r ->
        array_items m fuel room values (universal_newlines s)
        = Found v (universal_newlines r)).
Proof.
  induction fuel as [|fuel (IHscan & IHobj & IHarr)]; [repeat split; discriminate|].
  split; [|split].
  - intros room s v r H. destruct s as [|c r0]; [discriminate|].
    destruct (N.eqb_spec c 13) as [-> | Hc].
    + change (scan_once m (S fuel) room (13 :: r0)) with (scan_atom m (13 :: r0)) in H.
      destruct (universal_newlines_cr r0) as [x Hx]. rewrite Hx.
      change (scan_once m (S fuel) room (10 :: x)) with (scan_atom m (10 :: x)).
      rewrite <- Hx, scan_atom_universal_newlines, H. reflexivity.
    + rewrite (universal_newlines_cons c r0 Hc). simpl in H |- *.
      destruct (c =? 34).
      { destruct (scanstring r0) as [[chars r']|] eqn:Es; [|discriminate].
        inversion H; subst.
        now rewrite (scanstring_universal_newlines _ _ _ Es). }
      destruct (c =? 123).
      { destruct room as [|room]; [discriminate|].
        rewrite skip_ws_universal_newlines.
        destruct (skip_ws r0) as [|c1 r']; [discriminate|].
        destruct (N.eqb_spec c1 13) as [-> | Hc1]; [discriminate|].
        rewrite (universal_newlines_cons c1 r' Hc1).
        destruct (c1 =? 125); [now inversion H|].
        destruct (c1 =? 34); [now apply IHobj | discriminate]. }
      destruct (c =? 91).
      { destruct room as [|room]; [discriminate|].
        rewrite skip_ws_universal_newlines.
        destruct (skip_ws r0) as [|c1 r']; [discriminate|].
        destruct (N.eqb_spec c1 13) as [-> | Hc1].
        - change (13 =? 93) with false in H. cbv iota in H.
          apply IHarr in H.
          destruct (universal_newlines_cr r') as [x Hx]. rewrite Hx in H |- *.
          exact H.
        - destruct (c1 =? 93) eqn:E93.
          + rewrite (universal_newlines_cons c1 r' Hc1), E93. now inversion H.
          + apply IHarr in H.
            rewrite (universal_newlines_cons c1 r' Hc1) in H |- *.
            now rewrite E93. }
      rewrite <- (universal_newlines_cons c r0 Hc).
      now rewrite scan_atom_universal_newlines, H.
  - intros room pairs s v r H. simpl in H |- *.
    destruct (scanstring s) as [[key r1]|] eqn:Es; [|discriminate].
    rewrite (scanstring_universal_newlines _ _ _ Es).
    rewrite skip_ws_universal_newlines.
    destruct (skip_ws r1) as [|c1 r2]; [discriminate|].
    destruct (N.eqb_spec c1 13) as [-> | Hc1]; [discriminate|].
    rewrite (universal_newlines_cons c1 r2 Hc1).
    destruct (c1 =? 58); [|discriminate].
    rewrite skip_ws_universal_newlines.
    destruct (scan_once m fuel room (skip_ws r2)) as [value r3|e] eqn:Ev;
      [|discriminate].
    rewrite (IHscan _ _ _ _ Ev). rewrite skip_ws_universal_newlines.
    destruct (skip_ws r3) as [|c2 r4]; [discriminate|].
    destruct (N.eqb_spec c2 13) as [-> | Hc2]; [discriminate|].
    rewrite (universal_newlines_cons c2 r4 Hc2).
    destruct (c2 =? 125); [now inversion H|].
    destruct (c2 =? 44); [|discriminate].
    rewrite skip_ws_universal_newlines.
    destruct (skip_ws r4) as [|c3 r5]; [discriminate|].
    destruct (N.eqb_spec c3 13) as [-> | Hc3]; [discriminate|].
    rewrite (universal_newlines_cons c3 r5 Hc3).
    destruct (c3 =? 34); [now apply IHobj | discriminate].
  - intros room values s v r H. simpl in H |- *.
    destruct (scan_once m fuel room s) as [value r1|e] eqn:Ev; [|discriminate].
    rewrite (IHscan _ _ _ _ Ev). rewrite skip_ws_universal_newlines.
    destruct (skip_ws r1) as [|c1 r2]; [discriminate|].
    destruct (N.eqb_spec c1 13) as [-> | Hc1]; [discriminate|].
    rewrite (universal_newlines_cons c1 r2 Hc1).
    destruct (c1 =? 93); [now inversion H|].
    destruct (c1 =? 44); [|discriminate].
    rewrite skip_ws_universal_newlines. now apply IHarr.
Qed.

(** ** Fuel

    A scanner returns a proper suffix of its text, and the descent needs no
    more fuel than twice the number of characters it consumes. *)

Lemma skip_ws_length (s : str) :
  (List.length (skip_ws s) <= List.length s)%nat.
Proof.
  induction s as [|c r IH]; simpl; [lia|].
  destruct (is_ws c); simpl; lia.
Qed.

Lemma span_digits_length (s : str) :
  (List.length (snd (span_digits s)) <= List.length s)%nat.
Proof.
  induction s as [|c r IH]; simpl; [lia|].
  destruct (is_digit c); [|simpl; lia].
  destruct (span_digits r); simpl in *; lia.
Qed.

Lemma strip_prefix_length (lit s r : str) :
  strip_prefix lit s = Some r ->
  (List.length r + List.length lit = List.length s)%nat.
Proof.
  revert s. induction lit as [|a lit IH]; intros s H; simpl in H.
  - inversion H; subst. simpl. lia.
  - destruct s as [|c s']; [discriminate|].
    destruct (a =? c); [|discriminate].
    apply IH in H. simpl. lia.
Qed.

Lemma scanstring_length_le (n : nat) :
  forall s chars r, (List.length s <= n)%nat ->
    scanstring s = Some (chars, r) -> (List.length r < List.length s)%nat.
Proof.
  induction n as [|n IH]; intros s chars r Hn H.
  - destruct s; [discriminate | simpl in Hn; lia].
  - destruct s as [|c s1]; [discriminate|]. simpl in Hn, H |- *.
    destruct (c =? 34). { inversion H; subst. lia. }
    assert (G : forall x t chars r,
               (List.length t <= n)%nat ->
               prepend x (scanstring t) = Some (chars, r) ->
               (List.length r < List.length t)%nat).
    { intros x t chars0 r0 Ht H0. apply prepend_some in H0 as (chars' & Hs & _).
      now apply (IH t chars' r0). }
    destruct (c =? 92).
    + destruct s1 as [|e s2]; [discriminate|]. simpl in Hn |- *.
      destruct (e =? 117).
      * destruct s2 as [|h1 [|h2 [|h3 [|h4 s3]]]]; try discriminate.
        simpl in Hn |- *.
        destruct (decode_uXXXX h1 h2 h3 h4) as [uni|]; [|discriminate].
        assert (K : forall chars r,
                   prepend uni (scanstring s3) = Some (chars, r) ->
                   (List.length r < S (S (S (S (S (S (List.length s3)))))))%nat).
        { intros chars0 r0 H0. apply G in H0; lia. }
        destruct (is_high_surrogate uni); [|now apply K in H].
        destruct s3 as [|b1 [|b2 s5]]; try (now apply K in H).
        destruct ((b1 =? 92) && (b2 =? 117)); [|now apply K in H].
        destruct s5 as [|k1 [|k2 [|k3 [|k4 s6]]]]; try discriminate.
        destruct (decode_uXXXX k1 k2 k3 k4) as [uni2|]; [|discriminate].
        destruct (is_low_surrogate uni2); [|now apply K in H].
        simpl in Hn |- *. apply G in H; lia.
      * destruct (backslash e); [|discriminate]. apply G in H; lia.
    + destruct (c <? 32); [discriminate|]. apply G in H; lia.
Qed.

Lemma scanstring_length (s chars r : str) :
  scanstring s = Some (chars, r) -> (List.length r < List.length s)%nat.
Proof. now apply (scanstring_length_le (List.length s)). Qed.

Lemma match_digits_length (s text r : str) :
  match_digits s = Some (text, r) -> (List.length r < List.length s)%nat.
Proof.
  destruct s as [|c s1]; [discriminate|]. simpl.
  destruct (c =? 48). { intros H; inversion H; subst. lia. }
  destruct (is_digit c); [|discriminate].
  pose proof (span_digits_length s1) as Hl.
  destruct (span_digits s1) as [ds r']. intros H; inversion H; subst.
  simpl in Hl. lia.
Qed.

Lemma match_integer_length (s text r : str) :
  match_integer s = Some (text, r) -> (List.length r < List.length s)%nat.
Proof.
  destruct s as [|c s1]; [discriminate|]. unfold match_integer.
  destruct (c =? 45).
  - intros H. apply prepend_some in H as (text' & H & _).
    apply match_digits_length in H. simpl. lia.
  - apply match_digits_length.
Qed.

Lemma match_frac_length (s : str) :
  (List.length (snd (match_frac s)) <= List.length s)%nat.
Proof.
  destruct s as [|c s1]; simpl; [lia|].
  destruct (c =? 46); [|simpl; lia].
  pose proof (span_digits_length s1) as Hl.
  destruct (span_digits s1) as [[|d ds] r']; simpl in *; lia.
Qed.

Lemma match_sign_length (s : str) :
  (List.length (snd (match_sign s)) <= List.length s)%nat.
Proof.
  destruct s as [|c s1]; simpl; [lia|].
  destruct ((c =? 45) || (c =? 43)); simpl; lia.
Qed.

Lemma match_exp_length (s : str) :
  (List.length (snd (match_exp s)) <= List.length s)%nat.
Proof.
  destruct s as [|c s1]; simpl; [lia|].
  destruct ((c =? 101) || (c =? 69)); [|simpl; lia].
  pose proof (match_sign_length s1) as Hs.
  destruct (match_sign s1) as [sign r1].
  pose proof (span_digits_length r1) as Hl.
  destruct (span_digits r1) as [[|d ds] r']; simpl in *; lia.
Qed.

Lemma match_number_length (m : N) (s : str) (v : Document) (r : str) :
  match_number m s = Some (Found v r) -> (List.length r < List.length s)%nat.
Proof.
  unfold match_number.
  destruct (match_integer s) as [[integer r1]|] eqn:Ei; [|discriminate].
  apply match_integer_length in Ei.
  pose proof (match_frac_length r1) as Hf.
  destruct (match_frac r1) as [frac r2].
  pose proof (match_exp_length r2) as He.
  destruct (match_exp r2) as [exp r3]. simpl in Hf, He.
  destruct frac; [destruct exp|]; try destruct (over_int_limit m integer);
    intros H; inversion H; subst; lia.
Qed.

Lemma scan_atom_length (m : N) (s : str) (v : Document) (r : str) :
  scan_atom m s = Found v r -> (List.length r < List.length s)%nat.
Proof.
  unfold scan_atom.
  destruct (strip_prefix lit_null s) eqn:E1.
  { apply strip_prefix_length in E1. intros H; inversion H; subst.
    simpl in E1. lia. }
  destruct (strip_prefix lit_true s) eqn:E2.
  { apply strip_prefix_length in E2. intros H; inversion H; subst.
    simpl in E2. lia. }
  destruct (strip_prefix lit_false s) eqn:E3.
  { apply strip_prefix_length in E3. intros H; inversion H; subst.
    simpl in E3. lia. }
  destruct (match_number m s) as [res|] eqn:E4.
  { intros H. subst res. now apply match_number_length in E4. }
  destruct (strip_prefix lit_NaN s) eqn:E5.
  { apply strip_prefix_length in E5. intros H; inversion H; subst.
    simpl in E5. lia. }
  destruct (strip_prefix lit_Infinity s) eqn:E6.
  { apply strip_prefix_length in E6. intros H; inversion H; subst.
    simpl in E6. lia. }
  destruct (strip_prefix lit_neg_Infinity s) eqn:E7; [|discriminate].
  apply strip_prefix_length in E7. intros H; inversion H; subst.
  simpl in E7. lia.
Qed.

(** A descent that succeeds returns a proper suffix, and succeeds with the
    same result on any fuel that is at least twice what it consumed (and one
    more for the two loops). *)
Lemma scan_fuel (m : N) (fuel : nat) :
  (forall room s v r,
     scan_once m fuel room s = Found v r ->
     (List.length r < List.length s)%nat
     /\ forall fuel', (2 * (List.length s - List.length r) <= fuel')%nat ->
          scan_once m fuel' room s = Found v r)
  /\ (forall room pairs s v r,
        object_members m fuel room pairs s = Found v r ->
        (List.length r < List.length s)%nat
        /\ forall fuel', (2 * (List.length s - List.length r) + 1 <= fuel')%nat ->
             object_members m fuel' room pairs s = Found v r)
  /\ (forall room values s v r,
        array_items m fuel room values s = Found v r ->
        (List.length r < List.length s)%nat
        /\ forall fuel', (2 * (List.length s - List.length r) + 1 <= fuel')%nat ->
             array_items m fuel' room values s = Found v r).
Proof.
  induction fuel as [|fuel (IHscan & IHobj & IHarr)]; [repeat split; discriminate|].
  split; [|split].
  - intros room s v r H. destruct s as [|c r0]; [discriminate|]. simpl in H.
    destruct (c =? 34) eqn:E34.
    { destruct (scanstring r0) as [[chars r']|] eqn:Es; [|discriminate].
      inversion H; subst. pose proof (scanstring_length _ _ _ Es) as Hl.
      split; [sizes|]. intros [|g] Hg; [sizes|].
      simpl. now rewrite E34, Es. }
    destruct (c =? 123) eqn:E123.
    { destruct room as [|room]; [discriminate|].
      pose proof (skip_ws_length r0) as Hw.
      destruct (skip_ws r0) as [|c1 r'] eqn:Ew; [discriminate|]. cbn [List.length] in Hw.
      destruct (c1 =? 125) eqn:E125.
      { inversion H; subst. split; [sizes|].
        intros [|g] Hg; [sizes|].
        simpl. now rewrite E34, E123, Ew, E125. }
      destruct (c1 =? 34) eqn:Eq; [|discriminate].
      destruct (IHobj _ _ _ _ _ H) as [Hl Hf].
      split; [sizes|]. intros [|g] Hg; [sizes|].
      simpl. rewrite E34, E123, Ew, E125, Eq. apply Hf. sizes. }
    destruct (c =? 91) eqn:E91.
    { destruct room as [|room]; [discriminate|].
      pose proof (skip_ws_length r0) as Hw.
      destruct (skip_ws r0) as [|c1 r'] eqn:Ew; [discriminate|]. cbn [List.length] in Hw.
      destruct (c1 =? 93) eqn:E93.
      { inversion H; subst. split; [sizes|].
        intros [|g] Hg; [sizes|].
        simpl. now rewrite E34, E123, E91, Ew, E93. }
      destruct (IHarr _ _ _ _ _ H) as [Hl Hf]. cbn [List.length] in Hl.
      split; [sizes|]. intros [|g] Hg; [sizes|].
      simpl. rewrite E34, E123, E91, Ew, E93. apply Hf. sizes. }
    pose proof (scan_atom_length _ _ _ _ H) as Hl.
    split; [exact Hl|]. intros [|g] Hg; [sizes|].
    simpl. now rewrite E34, E123, E91.
  - intros room pairs s v r H. simpl in H.
    destruct (scanstring s) as [[key r1]|] eqn:Es; [|discriminate].
    pose proof (scanstring_length _ _ _ Es) as Hs.
    pose proof (skip_ws_length r1) as Hw1.
    destruct (skip_ws r1) as [|c1 r2] eqn:Ew1; [discriminate|]. cbn [List.length] in Hw1.
    destruct (c1 =? 58) eqn:E58; [|discriminate].
    pose proof (skip_ws_length r2) as Hw2.
    destruct (scan_once m fuel room (skip_ws r2)) as [value r3|e] eqn:Ev;
      [|discriminate].
    destruct (IHscan _ _ _ _ Ev) as [Hlv Hfv].
    pose proof (skip_ws_length r3) as Hw3.
    destruct (skip_ws r3) as [|c2 r4] eqn:Ew3; [discriminate|]. cbn [List.length] in Hw3.
    destruct (c2 =? 125) eqn:E125.
    { inversion H; subst. split; [sizes|].
      intros [|g] Hg; [sizes|].
      simpl. rewrite Es, Ew1, E58, (Hfv g ltac:(sizes)), Ew3, E125. reflexivity. }
    destruct (c2 =? 44) eqn:E44; [|discriminate].
    pose proof (skip_ws_length r4) as Hw4.
    destruct (skip_ws r4) as [|c3 r5] eqn:Ew4; [discriminate|]. cbn [List.length] in Hw4.
    destruct (c3 =? 34) eqn:Eq; [|discriminate].
    destruct (IHobj _ _ _ _ _ H) as [Hl Hf].
    split; [sizes|]. intros [|g] Hg; [sizes|].
    simpl. rewrite Es, Ew1, E58, (Hfv g ltac:(sizes)), Ew3, E125, E44, Ew4, Eq.
    apply Hf. sizes.
  - intros room values s v r H. simpl in H.
    destruct (scan_once m fuel room s) as [value r1|e] eqn:Ev; [|discriminate].
    destruct (IHscan _ _ _ _ Ev) as [Hlv Hfv].
    pose proof (skip_ws_length r1) as Hw1.
    destruct (skip_ws r1) as [|c1 r2] eqn:Ew1; [discriminate|]. cbn [List.length] in Hw1.
    destruct (c1 =? 93) eqn:E93.
    { inversion H; subst. split; [sizes|].
      intros [|g] Hg; [sizes|].
      simpl. rewrite (Hfv g ltac:(sizes)), Ew1, E93. reflexivity. }
    destruct (c1 =? 44) eqn:E44; [|discriminate].
    pose proof (skip_ws_length r2) as Hw2.
    destruct (IHarr _ _ _ _ _ H) as [Hl Hf].
    split; [sizes|]. intros [|g] Hg; [sizes|].
    simpl. rewrite (Hfv g ltac:(sizes)), Ew1, E93, E44. apply Hf. sizes.
Qed.

(** The fuel [json_loads] gives is enough: a text that some fuel parses is
    parsed, to the same value, with [fuel_for]. *)
Lemma fuel_for_enough (m : N) (fuel room : nat) (s t : str) (v : Document) (r : str) :
  (List.length t <= List.length s)%nat ->
  scan_once m fuel room t = Found v r ->
  scan_once m (fuel_for s) room t = Found v r.
Proof.
  intros Hl H. destruct (scan_fuel m fuel) as (Hscan & _ & _).
  destruct (Hscan _ _ _ _ H) as [_ Hf]. apply Hf. unfold fuel_for. lia.
Qed.

(** The value of a JSON text does not depend on how its lines end. *)
Lemma json_loads_universal_newlines (lim : Limits) (text : str) (d : Document) :
  json_loads lim text = Ok d -> json_loads lim (universal_newlines text) = Ok d.
Proof.
  unfold json_loads. intros H.
  assert (Hbom : match universal_newlines text with
                 | c :: _ => c =? 65279
                 | [] => false
                 end = false).
  { destruct text as [|c r]; [reflexivity|].
    destruct (N.eqb_spec c 13) as [-> | Hc].
    - now destruct (universal_newlines_cr r) as [x ->].
    - rewrite (universal_newlines_cons c r Hc).
      now destruct (c =? 65279). }
  rewrite Hbom.
  destruct (match text with c :: _ => c =? 65279 | [] => false end);
    [discriminate|].
  destruct (scan_once (max_str_digits lim) (fuel_for text) (max_nesting lim)
              (skip_ws text)) as [obj r|e] eqn:Es; [|discriminate].
  destruct (skip_ws r) eqn:Er; [|discriminate]. inversion H; subst obj.
  destruct (scan_universal_newlines (max_str_digits lim) (fuel_for text))
    as (Hscan & _ & _).
  apply Hscan in Es. rewrite <- skip_ws_universal_newlines in Es.
  rewrite (fuel_for_enough _ _ _ (universal_newlines text) _ _ _
             (skip_ws_length _) Es).
  now rewrite skip_ws_universal_newlines, Er.
Qed.

(** ** Laxer limits

    The limits of the interpreter refuse texts; they do not change the value
    of a text they let through.  A descent that succeeds succeeds with the
    same result when [int()] takes at least the same literals and the
    scanner has at least the same room, or room for as many levels as the
    text has characters. *)







(** ** The fuel never runs out

    On a fuel of at least twice the length of the text (and one more for the
    two loops) the descent gives the same outcome, value or exception, as on
    any larger fuel: the bound of the definition is never what stops it. *)
Lemma scan_fuel_independent (m : N) (fuel : nat) :
  (forall fuel' room s,
     (2 * List.length s <= fuel)%nat -> (2 * List.length s <= fuel')%nat ->
     scan_once m fuel room s = scan_once m fuel' room s)
  /\ (forall fuel' room pairs s,
        (2 * List.length s + 1 <= fuel)%nat -> (2 * List.length s + 1 <= fuel')%nat ->
        object_members m fuel room pairs s = object_members m fuel' room pairs s)
  /\ (forall fuel' room values s,
        (2 * List.length s + 1 <= fuel)%nat -> (2 * List.length s + 1 <= fuel')%nat ->
        array_items m fuel room values s = array_items m fuel' room values s).
Proof.
  induction fuel as [|fuel (IHscan & IHobj & IHarr)].
  { split; [|split].
    - intros fuel' room [|c r] H H'; [now destruct fuel' | sizes].
    - intros; lia.
    - intros; lia. }
  destruct (scan_fuel m fuel) as (Lscan & _ & _).
  split; [|split].
  - intros [|fuel'] room s H H'.
    { destruct s; [reflexivity | sizes]. }
    destruct s as [|c r0]; [reflexivity|]. simpl.
    destruct (c =? 34); [reflexivity|].
    destruct (c =? 123).
    { destruct room as [|room]; [reflexivity|].
      pose proof (skip_ws_length r0) as Hw.
      destruct (skip_ws r0) as [|c1 r']; [reflexivity|]. cbn [List.length] in Hw.
      destruct (c1 =? 125); [reflexivity|].
      destruct (c1 =? 34); [|reflexivity]. apply IHobj; sizes. }
    destruct (c =? 91); [|reflexivity].
    destruct room as [|room]; [reflexivity|].
    pose proof (skip_ws_length r0) as Hw.
    destruct (skip_ws r0) as [|c1 r']; [reflexivity|]. cbn [List.length] in Hw.
    destruct (c1 =? 93); [reflexivity|]. apply IHarr; sizes.
  - intros [|fuel'] room pairs s H H'; [lia|]. simpl.
    destruct (scanstring s) as [[key r1]|] eqn:Es; [|reflexivity].
    pose proof (scanstring_length _ _ _ Es) as Hs.
    pose proof (skip_ws_length r1) as Hw1.
    destruct (skip_ws r1) as [|c1 r2]; [reflexivity|]. cbn [List.length] in Hw1.
    destruct (c1 =? 58); [|reflexivity].
    pose proof (skip_ws_length r2) as Hw2.
    rewrite <- (IHscan fuel' room (skip_ws r2)) by sizes.
    destruct (scan_once m fuel room (skip_ws r2)) as [value r3|e] eqn:Ev;
      [|reflexivity].
    destruct (Lscan _ _ _ _ Ev) as [Hlv _].
    pose proof (skip_ws_length r3) as Hw3.
    destruct (skip_ws r3) as [|c2 r4]; [reflexivity|]. cbn [List.length] in Hw3.
    destruct (c2 =? 125); [reflexivity|].
    destruct (c2 =? 44); [|reflexivity].
    pose proof (skip_ws_length r4) as Hw4.
    destruct (skip_ws r4) as [|c3 r5]; [reflexivity|]. cbn [List.length] in Hw4.
    destruct (c3 =? 34); [|reflexivity]. apply IHobj; sizes.
  - intros [|fuel'] room values s H H'; [lia|]. simpl.
    rewrite <- (IHscan fuel' room s) by sizes.
    destruct (scan_once m fuel room s) as [value r1|e] eqn:Ev; [|reflexivity].
    destruct (Lscan _ _ _ _ Ev) as [Hlv _].
    pose proof (skip_ws_length r1) as Hw1.
    destruct (skip_ws r1) as [|c1 r2]; [reflexivity|]. cbn [List.length] in Hw1.
    destruct (c1 =? 93); [reflexivity|].
    destruct (c1 =? 44); [|reflexivity].
    pose proof (skip_ws_length r2) as Hw2.
    apply IHarr; sizes.
Qed.

(** [json_loads] is what the decoder gives on any fuel that is at least
    [fuel_for] of the text. *)
Lemma fuel_for_never_runs_out (m : N) (fuel room : nat) (s : str) :
  (fuel_for s <= fuel)%nat ->
  scan_once m fuel room (skip_ws s) = scan_once m (fuel_for s) room (skip_ws s).
Proof.
  intros H. destruct (scan_fuel_independent m fuel) as (Hscan & _ & _).
  pose proof (skip_ws_length s). unfold fuel_for in *. apply Hscan; lia.
Qed.

(** * The properties of the script *)

(** ** The batch *)


Lemma sensors_parse :
  forall p, In p (glob sensors_world pattern) ->
  exists d, content_parses sensors_world p d.
Proof.
  intros p [<- | [<- | []]]; eexists; apply load_iff_content;
    vm_compute; reflexivity.
Defined.



(** ** Failures *)

(** C2.  When a discovered file does not open or does not parse, [main]
    ends with an exception, the broker's update is not called and the broker
    is as it was.  The exception is the one of the first file that fails:
    when the files before the failing one load, the run ends with its
    exception and no file after it is opened or read. *)
Theorem failure_aborts_before_update
  (Broker : Type) (Orion_update : list Document -> Broker -> Result unit * Broker)
  (w : World) (b0 : Broker) (p : string) (e : Exception) :
  In p (glob w pattern) ->
  load_failure w p e ->
  (exists e', fst (run Broker Orion_update w b0) = Raise e')
  /\ updates (log (snd (run Broker Orion_update w b0))) = []
  /\ broker (snd (run Broker Orion_update w b0)) = b0
  /\ (forall before after,
        glob w pattern = before ++ p :: after ->
        (forall q, In q before -> exists d, content_parses w q d) ->
        fst (run Broker Orion_update w b0) = Raise e
        /\ opens (log (snd (run Broker Orion_update w b0))) = before ++ [p]
        /\ (forall q, In q (reads (log (snd (run Broker Orion_update w b0)))) ->
                      In q (before ++ [p]))).
Proof.
  intros Hin Hp. apply load_raise_iff in Hp.
  destruct (run_raises_if_some_fails Broker Orion_update w b0 p e Hin Hp)
    as (Hraise & Hupd & Hbroker).
  split; [exact Hraise|]. split; [exact Hupd|]. split; [exact Hbroker|].
  intros before after Hg Hb.
  rewrite (run_raise Broker Orion_update w b0 before p after e Hg
             (loads_of_contents w _ Hb) Hp); simpl.
  rewrite opens_file_events.
  split; [reflexivity|]. split; [reflexivity|]. apply reads_file_events.
Qed.

Lemma failure_aborts_before_update_witness :
  In "json/bad.json"%string (glob bad_world pattern)
  /\ load_failure bad_world "json/bad.json" JSONDecodeError
  /\ glob bad_world pattern
     = ["json/a.json"%string] ++ "json/bad.json"%string :: ["json/c.json"%string]
  /\ (forall q, In q ["json/a.json"%string] -> exists d, content_parses bad_world q d)
  /\ fst (run Store store_update bad_world []) = Raise JSONDecodeError
  /\ updates (log (snd (run Store store_update bad_world []))) = []
  /\ broker (snd (run Store store_update bad_world [])) = []
  /\ opens (log (snd (run Store store_update bad_world [])))
     = ["json/a.json"%string] ++ ["json/bad.json"%string].
Proof.
  assert (Hin : In "json/bad.json"%string (glob bad_world pattern))
    by (right; left; reflexivity).
  assert (Hp : load_failure bad_world "json/bad.json" JSONDecodeError).
  { apply load_raise_iff. vm_compute. reflexivity. }
  assert (Hg : glob bad_world pattern
               = ["json/a.json"%string] ++ "json/bad.json"%string :: ["json/c.json"%string])
    by reflexivity.
  assert (Hb : forall q, In q ["json/a.json"%string] ->
                         exists d, content_parses bad_world q d).
  { intros q [<- | []]. eexists. apply load_iff_content.
    vm_compute. reflexivity. }
  destruct (failure_aborts_before_update Store store_update bad_world []
              "json/bad.json" JSONDecodeError Hin Hp)
    as (_ & Hupd & Hbroker & Hfirst).
  destruct (Hfirst _ _ Hg Hb) as (Hraise & Hopens & _).
  repeat split; trivial.
Defined.

(** ** No file at all *)

(** C3.  With no [json] directory, or an empty one, discovery yields no
    path; and whenever discovery yields no path, nothing is opened, the
    broker's update is called once, with the empty batch, and the outcome of
    that call is the outcome of the run: no exception comes from the script
    itself. *)
Theorem empty_discovery_updates_with_empty_batch
  (Broker : Type) (Orion_update : list Document -> Broker -> Result unit * Broker)
  (w : World) (b0 : Broker) :
  (lookup "json" (cwd w) = None -> glob w pattern = [])
  /\ (forall listable searchable,
        lookup "json" (cwd w) = Some (Directory listable searchable []) ->
        glob w pattern = [])
  /\ (glob w pattern = [] ->
      run Broker Orion_update w b0
      = (fst (Orion_update [] b0),
         {| log := [EvGlob pattern; EvUpdate []];
            open_files := [];
            broker := snd (Orion_update [] b0) |})
      /\ updates (log (snd (run Broker Orion_update w b0))) = [[]]).
Proof.
  repeat split.
  - intros H. now rewrite glob_pattern_eq, H.
  - intros listable searchable H. rewrite glob_pattern_eq, H. now destruct listable.
  - rewrite run_spec, H. reflexivity.
  - rewrite run_spec, H. reflexivity.
Qed.

Lemma empty_discovery_updates_with_empty_batch_witness :
  lookup "json" (cwd bare_world) = None
  /\ glob bare_world pattern = []
  /\ run Store store_update bare_world []
     = (Ok tt,
        {| log := [EvGlob pattern; EvUpdate []]; open_files := []; broker := [[]] |})
  /\ updates (log (snd (run Store store_update bare_world []))) = [[]].
Proof.
  destruct (empty_discovery_updates_with_empty_batch Store store_update bare_world [])
    as (Habsent & _ & Hrun).
  split; [reflexivity|].
  split; [exact (Habsent eq_refl)|].
  exact (Hrun (Habsent eq_refl)).
Defined.

(** ** The one call of the broker *)

(** C4.  When every discovered file parses, that is, it opens and
    [json.load] returns a Document for it, the log of the run ends with the
    one update event there is; before it come the reads of all the
    discovered files, in discovery order; and the argument of the update is
    the batch of all their Documents. *)
Theorem update_called_once_after_all_files
  (Broker : Type) (Orion_update : list Document -> Broker -> Result unit * Broker)
  (w : World) (b0 : Broker) :
  (forall p, In p (glob w pattern) -> exists d, content_parses w p d) ->
  exists batch before,
    log (snd (run Broker Orion_update w b0)) = before ++ [EvUpdate batch]
    /\ updates (log (snd (run Broker Orion_update w b0))) = [batch]
    /\ updates before = []
    /\ opens before = glob w pattern
    /\ reads before = glob w pattern
    /\ Forall2 (content_parses w) (glob w pattern) batch
    /\ fst (run Broker Orion_update w b0) = fst (Orion_update batch b0)
    /\ broker (snd (run Broker Orion_update w b0)) = snd (Orion_update batch b0).
Proof.
  intros Hall. pose proof (loads_of_contents w _ Hall) as Hload.
  destruct (run_all_loaded Broker Orion_update w b0 Hload) as (batch & Hf & ->).
  exists batch, (EvGlob pattern :: flat_map (file_events w) (glob w pattern)).
  simpl. rewrite updates_app.
  rewrite updates_file_events, opens_file_events, (reads_all_loaded w _ Hload).
  repeat split. now apply Forall2_load_content.
Qed.

Lemma update_called_once_after_all_files_witness :
  (forall p, In p (glob sensors_world pattern) ->
             exists d, content_parses sensors_world p d)
  /\ exists batch before,
       log (snd (run Store store_update sensors_world [])) = before ++ [EvUpdate batch]
       /\ updates (log (snd (run Store store_update sensors_world []))) = [batch]
       /\ updates before = []
       /\ opens before = glob sensors_world pattern
       /\ reads before = glob sensors_world pattern
       /\ Forall2 (content_parses sensors_world) (glob sensors_world pattern) batch
       /\ fst (run Store store_update sensors_world []) = fst (store_update batch [])
       /\ broker (snd (run Store store_update sensors_world []))
          = snd (store_update batch []).
Proof.
  split; [exact sensors_parse|].
  exact (update_called_once_after_all_files Store store_update sensors_world []
           sensors_parse).
Defined.

(** ** Reading one file *)

(** C5, as amended.  The [with] block on a file that opens reads it and
    closes it; the content is decoded with the text encoding in use, which
    is the interpreter's default and not UTF-8 by itself, line ends are
    translated, and the text is deserialized by [json.loads], whose outcome
    is the outcome of the block.  Where the encoding in use is UTF-8, a file
    whose bytes are, in UTF-8, a JSON text that [json.loads] accepts within
    the limits of the interpreter yields the Document of that text. *)
Theorem file_is_read_as_text_and_parsed
  (Broker : Type) (w : World) (path : string) (f : TextIOWrapper) (st : State Broker) :
  open_ w path = inr f ->
  with_ Broker (open_file Broker w path) (f_close Broker)
    (json_load Broker (limits w)) st
  = (match decode (preferred_encoding w) (f_raw f) with
     | None => Raise UnicodeDecodeError
     | Some text => json_loads (limits w) (universal_newlines text)
     end,
     {| log := log st ++ [EvOpen path; EvRead path; EvClose path];
        open_files := open_files st;
        broker := broker st |})
  /\ (preferred_encoding w = utf_8 ->
      forall text d,
        decode utf_8 (f_raw f) = Some text ->
        json_loads (limits w) text = Ok d ->
        fst (with_ Broker (open_file Broker w path) (f_close Broker)
               (json_load Broker (limits w)) st)
        = Ok d).
Proof.
  intros Ho. rewrite with_block_spec.
  unfold load, file_events, f_read, read_text. rewrite Ho.
  rewrite (open_encoding w path f Ho).
  split.
  - now destruct (decode (preferred_encoding w) (f_raw f)).
  - intros Henc text d Hd Hj. rewrite Henc, Hd. cbn [option_map fst].
    now rewrite (json_loads_universal_newlines _ text d Hj).
Qed.

Lemma file_is_read_as_text_and_parsed_witness :
  open_ crlf_world "json/a.json"
  = inr {| f_name := "json/a.json"; f_raw := crlf_data; f_encoding := utf_8 |}
  /\ preferred_encoding crlf_world = utf_8
  /\ json_loads (limits crlf_world)
       (of_ascii "{" ++ [34] ++ of_ascii "id" ++ [34; 58; 34; 49; 34; 44; 13; 10; 34]
        ++ of_ascii "name" ++ [34; 58; 34; 233; 34; 13; 10] ++ of_ascii "}")
     = Ok (PyDict [(of_ascii "id", PyStr [49]); (of_ascii "name", PyStr [233])])
  /\ fst (with_ Store (open_file Store crlf_world "json/a.json") (f_close Store)
            (json_load Store (limits crlf_world)) (start Store []))
     = Ok (PyDict [(of_ascii "id", PyStr [49]); (of_ascii "name", PyStr [233])]).
Proof.
  split; [reflexivity|]. split; [reflexivity|].
  assert (Hj : json_loads (limits crlf_world)
                 (of_ascii "{" ++ [34] ++ of_ascii "id"
                  ++ [34; 58; 34; 49; 34; 44; 13; 10; 34]
                  ++ of_ascii "name" ++ [34; 58; 34; 233; 34; 13; 10] ++ of_ascii "}")
               = Ok (PyDict [(of_ascii "id", PyStr [49]);
                             (of_ascii "name", PyStr [233])]))
    by (vm_compute; reflexivity).
  split; [exact Hj|].
  exact (proj2 (file_is_read_as_text_and_parsed Store crlf_world "json/a.json"
                  _ (start Store []) eq_refl)
           eq_refl _ _ eq_refl Hj).
Defined.

(** C5, as stated, fails where the encoding in use is not UTF-8: the
    discovered file holds a quoted e-acute in UTF-8, which is the JSON text
    of the one-character string; read as Latin-1 it gives a string of two
    characters, and that is what goes to the broker. *)
Lemma utf_8_file_read_as_latin_1 :
  glob accent_world_latin_1 pattern = ["json/a.json"%string]
  /\ entry_at accent_world_latin_1 "json/a.json"
     = inr (RegularFile true [Byte.x22; Byte.xc3; Byte.xa9; Byte.x22])
  /\ decode utf_8 [Byte.x22; Byte.xc3; Byte.xa9; Byte.x22] = Some [34; 233; 34]
  /\ json_loads (limits accent_world_latin_1) [34; 233; 34] = Ok (PyStr [233])
  /\ with_ Store (open_file Store accent_world_latin_1 "json/a.json")
       (f_close Store) (json_load Store (limits accent_world_latin_1))
       (start Store [])
     = (Ok (PyStr [195; 169]),
        {| log := [EvOpen "json/a.json"; EvRead "json/a.json"; EvClose "json/a.json"];
           open_files := [];
           broker := [] |})
  /\ updates (log (snd (run Store store_update accent_world_latin_1 [])))
     = [[PyStr [195; 169]]].
Proof. repeat split; vm_compute; reflexivity. Qed.

(** ** Discovery *)

(** C6, as amended.  When the process may list the directory [json] of the
    working directory, discovery returns the entries of that directory, and
    of that directory only (nothing below it), that the glob pattern
    [*.json] matches, in the directory's order, each under its path
    [json/name]; when [json] is absent, is no directory, or may not be
    listed, discovery returns nothing.  As everywhere in [glob], the star
    does not match the dot of a hidden name, so the pattern matches the
    names that end in [.json] and do not start with a dot.  Worlds with the
    same working directory have the same discovery, whatever their
    arguments, environment and interpreter settings. *)
Theorem discovery_lists_json_directory (w : World) :
  glob w pattern
  = match lookup "json" (cwd w) with
    | Some (Directory true _ children) =>
        map (os_path_join "json") (filter selected (map fst children))
    | _ => []
    end
  /\ (forall name,
        selected name = true
        <-> ishidden name = false /\ exists stem, name = (stem ++ ".json")%string)
  /\ (forall name, valid_name name = true ->
        os_path_join "json" name = ("json/" ++ name)%string)
  /\ (forall w', cwd w' = cwd w -> glob w' pattern = glob w pattern).
Proof.
  split; [apply glob_pattern_eq|].
  split; [apply selected_iff|].
  split; [apply valid_name_join|].
  intros w' H. now rewrite !glob_pattern_eq, H.
Qed.

(** C6, as stated, fails for a directory the process may not list: [json]
    holds [a.json], a file the pattern matches and [open] opens, and
    discovery returns nothing, because [glob] takes the error of the listing
    for an empty directory; the broker gets the empty batch. *)
Lemma unlistable_directory_is_not_discovered :
  lookup "json" (cwd unlistable_world)
  = Some (Directory false true
            [("a.json"%string, RegularFile true (json_text "{'id':'1'}"))])
  /\ selected "a.json" = true
  /\ load unlistable_world "json/a.json" = Ok (PyDict [(of_ascii "id", PyStr [49])])
  /\ glob unlistable_world pattern = []
  /\ updates (log (snd (run Store store_update unlistable_world []))) = [[]].
Proof. repeat split. Qed.

(** ** File handles *)

(** C8.  In every run, whatever its outcome, a file handle that was acquired
    is read and then released before anything else happens, and no file is
    open when the run ends.  When [json.loads] raises on the content of a
    file, the log ends with the opening, the reading and the release of that
    file. *)
Theorem file_handles_are_released
  (Broker : Type) (Orion_update : list Document -> Broker -> Result unit * Broker)
  (w : World) (b0 : Broker) :
  open_files (snd (run Broker Orion_update w b0)) = []
  /\ (forall l1 path l2,
        log (snd (run Broker Orion_update w b0)) = l1 ++ EvOpen path :: l2 ->
        exists l3, l2 = EvRead path :: EvClose path :: l3)
  /\ (forall before p after f text e,
        glob w pattern = before ++ p :: after ->
        (forall q, In q before -> exists d, content_parses w q d) ->
        open_ w p = inr f -> f_read f = Some text ->
        json_loads (limits w) text = Raise e ->
        exists l,
          log (snd (run Broker Orion_update w b0))
          = l ++ [EvOpen p; EvRead p; EvClose p]).
Proof.
  destruct (run_scoped Broker Orion_update w b0) as [Hopen Hscoped].
  split; [exact Hopen|]. split.
  - intros l1 path l2 E. exact (scoped_open _ Hscoped l1 path l2 E).
  - intros before p after f text e Hg Hb Ho Hr Hj.
    rewrite (run_raise Broker Orion_update w b0 before p after e Hg
               (loads_of_contents w _ Hb)).
    + exists (EvGlob pattern :: flat_map (file_events w) before).
      simpl. rewrite flat_map_app. simpl. unfold file_events at 2.
      now rewrite Ho, app_nil_r.
    + apply load_raise_iff. now apply parse_fails with f text.
Qed.

Lemma file_handles_are_released_witness :
  glob bad_world pattern
  = ["json/a.json"%string] ++ "json/bad.json"%string :: ["json/c.json"%string]
  /\ open_ bad_world "json/bad.json" = inr bad_file
  /\ f_read bad_file = Some (of_ascii "{invalid}")
  /\ json_loads (limits bad_world) (of_ascii "{invalid}") = Raise JSONDecodeError
  /\ open_files (snd (run Store store_update bad_world [])) = []
  /\ exists l,
       log (snd (run Store store_update bad_world []))
       = l ++ [EvOpen "json/bad.json"; EvRead "json/bad.json"; EvClose "json/bad.json"].
Proof.
  assert (Hb : forall q, In q ["json/a.json"%string] ->
                         exists d, content_parses bad_world q d).
  { intros q [<- | []]. eexists. apply load_iff_content.
    vm_compute. reflexivity. }
  assert (Hr : f_read bad_file = Some (of_ascii "{invalid}"))
    by (vm_compute; reflexivity).
  assert (Hj : json_loads (limits bad_world) (of_ascii "{invalid}")
               = Raise JSONDecodeError)
    by (vm_compute; reflexivity).
  destruct (file_handles_are_released Store store_update bad_world [])
    as (Hopen & _ & Hparse).
  split; [reflexivity|]. split; [reflexivity|].
  split; [exact Hr|]. split; [exact Hj|]. split; [exact Hopen|].
  exact (Hparse ["json/a.json"%string] "json/bad.json"%string
           ["json/c.json"%string] bad_file (of_ascii "{invalid}") JSONDecodeError
           eq_refl Hb eq_refl Hr Hj).
Defined.


(** ** Two runs *)




(** C9, as stated, fails on the environment as well: the same paths, bytes
    and encoding, with PYTHONINTMAXSTRDIGITS set to 640 in one run and not
    set in the other; a file with an integer of 700 digits is sent to the
    broker in the one and makes [json.load] raise [ValueError] in the
    other. *)
Lemma same_files_other_digit_limit_other_outcome :
  cwd integer_700_world = cwd integer_700_world_limit_640
  /\ preferred_encoding integer_700_world
     = preferred_encoding integer_700_world_limit_640
  /\ int_max_str_digits (environ integer_700_world) = 4300
  /\ int_max_str_digits (environ integer_700_world_limit_640) = 640
  /\ updates (log (snd (run Store store_update integer_700_world [])))
     = [[PyInt (parse_int (repeat 55 700))]]
  /\ fst (run Store store_update integer_700_world_limit_640 []) = Raise ValueError
  /\ updates (log (snd (run Store store_update integer_700_world_limit_640 []))) = [].
Proof. repeat split; vm_compute; reflexivity. Qed.

(** ** Entries that are not files *)




(** C10, as stated, fails on special files as well: a FIFO whose name ends
    in [.json] is no regular file, and when a writer sends an object through
    it, it is discovered, opened and loaded, and its object goes to the
    broker; a link to the null device opens too, and its empty content is
    what [json.load] refuses. *)
Lemma readable_fifo_is_loaded :
  lookup "json" (cwd fifo_world)
  = Some (Directory true true
            [("x.json"%string, SpecialFile true (json_text "{'id':'fifo'}"))])
  /\ glob fifo_world pattern = ["json/x.json"%string]
  /\ updates (log (snd (run Store store_update fifo_world [])))
     = [[PyDict [(of_ascii "id", PyStr (of_ascii "fifo"))]]]
  /\ glob null_device_world pattern = ["json/null.json"%string]
  /\ opens (log (snd (run Store store_update null_device_world [])))
     = ["json/null.json"%string]
  /\ reads (log (snd (run Store store_update null_device_world [])))
     = ["json/null.json"%string]
  /\ fst (run Store store_update null_device_world []) = Raise JSONDecodeError.
Proof. repeat split. Qed.

(** * More on the script *)

(** ** [main] in any state *)

Section MainFacts.

Variable Broker : Type.
Variable Orion_update : list Document -> Broker -> Result unit * Broker.

(** [main] in closed form, from any state. *)
Lemma main_spec (w : World) (st : State Broker) :
  main Broker Orion_update w st
  = match load_all w (glob w pattern) [] with
    | (Ok objects, evs) =>
        (fst (Orion_update objects (broker st)),
         {| log := log st ++ EvGlob pattern :: evs ++ [EvUpdate objects];
            open_files := open_files st;
            broker := snd (Orion_update objects (broker st)) |})
    | (Raise e, evs) =>
        (Raise e,
         {| log := log st ++ EvGlob pattern :: evs;
            open_files := open_files st;
            broker := broker st |})
    end.
Proof.
  unfold main. unfold bind at 1. unfold glob_glob at 1.
  unfold bind at 1. rewrite for_spec; simpl.
  destruct (load_all w (glob w pattern) []) as [[objects | e] evs]; simpl.
  - unfold update; simpl. destruct (Orion_update objects (broker st)).
    simpl. now rewrite <- !app_assoc.
  - now rewrite <- !app_assoc.
Qed.

(** The batches of a run do not depend on the state of the broker. *)
Lemma updates_run_any_broker (w : World) (b1 b2 : Broker) :
  updates (log (snd (run Broker Orion_update w b1)))
  = updates (log (snd (run Broker Orion_update w b2))).
Proof.
  rewrite !run_spec.
  destruct (load_all w (glob w pattern) []) as [[objects | e] evs]; simpl;
    now rewrite ?updates_app.
Qed.

End MainFacts.

(** X1.  In every run [Orion.update] is called at most once, and it is
    called exactly when every discovered file opens and holds a text that
    [json.load] accepts in this interpreter. *)
Theorem update_iff_every_file_loads
  (Broker : Type) (Orion_update : list Document -> Broker -> Result unit * Broker)
  (w : World) (b0 : Broker) :
  (List.length (updates (log (snd (run Broker Orion_update w b0)))) <= 1)%nat
  /\ (updates (log (snd (run Broker Orion_update w b0))) <> []
      <-> forall p, In p (glob w pattern) -> exists d, content_parses w p d).
Proof.
  rewrite run_spec.
  destruct (load_all_cases w (glob w pattern) [])
    as [(ds & -> & Hf) | (before & p & after & e & Hg & Hb & Hp & ->)]; simpl.
  - rewrite updates_app, updates_file_events. simpl.
    split; [lia|]. split; [|easy].
    intros _ q Hq. destruct (Forall2_In_l _ _ _ Hf q Hq) as [d Hd].
    exists d. now apply load_iff_content.
  - rewrite updates_file_events. simpl. split; [lia|]. split; [easy|].
    intros Hall. destruct (Hall p) as [d Hd].
    + rewrite Hg. apply in_elt.
    + apply load_iff_content in Hd. congruence.
Qed.

(** X2.  In every run the paths that are opened are a prefix of the
    discovery list, in its order; a file is read only if it was opened; and
    every opened path is [json/name] for an entry of the directory [json]
    that the pattern selects.  Nothing else is ever opened. *)
Theorem opened_paths_are_a_prefix_of_discovery
  (Broker : Type) (Orion_update : list Document -> Broker -> Result unit * Broker)
  (w : World) (b0 : Broker) :
  (exists rest,
     glob w pattern = opens (log (snd (run Broker Orion_update w b0))) ++ rest)
  /\ (forall q, In q (reads (log (snd (run Broker Orion_update w b0)))) ->
                In q (opens (log (snd (run Broker Orion_update w b0)))))
  /\ (forall q, In q (opens (log (snd (run Broker Orion_update w b0)))) ->
        exists searchable children name,
          lookup "json" (cwd w) = Some (Directory true searchable children)
          /\ In name (map fst children)
          /\ selected name = true
          /\ q = os_path_join "json" name).
Proof.
  assert (Hsel : forall q, In q (glob w pattern) ->
            exists searchable children name,
              lookup "json" (cwd w) = Some (Directory true searchable children)
              /\ In name (map fst children)
              /\ selected name = true
              /\ q = os_path_join "json" name).
  { intros q. rewrite glob_pattern_eq.
    destruct (lookup "json" (cwd w)) as [[? ? | [|] x children | ? ? | | |] |];
      try easy.
    rewrite in_map_iff. intros (name & <- & Hin).
    apply filter_In in Hin as [Hin Hs]. now exists x, children, name. }
  rewrite run_spec.
  destruct (load_all_cases w (glob w pattern) [])
    as [(ds & -> & Hf) | (before & p & after & e & Hg & Hb & Hp & ->)]; simpl.
  - rewrite opens_app, reads_app, opens_file_events. simpl.
    rewrite !app_nil_r.
    split; [exists []; now rewrite app_nil_r|]. split; [|exact Hsel].
    apply reads_file_events.
  - rewrite opens_file_events. split; [|split].
    + exists after. now rewrite Hg, <- app_assoc.
    + apply reads_file_events.
    + intros q Hq. apply Hsel. rewrite Hg.
      apply in_app_iff in Hq as [Hq | [<- | []]].
      * apply in_or_app. now left.
      * apply in_elt.
Qed.

(** X3.  Called in any state, [main] does what a run from the start does
    with the same broker: same outcome, same effect on the broker, the
    run's events appended to what was logged before, and the files that
    were open before left as they were. *)
Theorem main_in_any_state
  (Broker : Type) (Orion_update : list Document -> Broker -> Result unit * Broker)
  (w : World) (st : State Broker) :
  fst (main Broker Orion_update w st)
  = fst (run Broker Orion_update w (broker st))
  /\ log (snd (main Broker Orion_update w st))
     = log st ++ log (snd (run Broker Orion_update w (broker st)))
  /\ open_files (snd (main Broker Orion_update w st)) = open_files st
  /\ broker (snd (main Broker Orion_update w st))
     = broker (snd (run Broker Orion_update w (broker st))).
Proof.
  rewrite main_spec, run_spec.
  now destruct (load_all w (glob w pattern) []) as [[objects | e] evs].
Qed.

(** X4.  Two calls of [main] in a row, on unchanged files: when the first
    call returns, the second sends the batch the first one sent; when the
    first call raises, there is no second call. *)
Theorem main_twice
  (Broker : Type) (Orion_update : list Document -> Broker -> Result unit * Broker)
  (w : World) (b0 : Broker) :
  (fst (run Broker Orion_update w b0) = Ok tt ->
   updates (log (snd (bind Broker (main Broker Orion_update w)
                        (fun _ => main Broker Orion_update w)
                        (start Broker b0))))
   = updates (log (snd (run Broker Orion_update w b0)))
     ++ updates (log (snd (run Broker Orion_update w b0))))
  /\ (forall e, fst (run Broker Orion_update w b0) = Raise e ->
      bind Broker (main Broker Orion_update w)
        (fun _ => main Broker Orion_update w) (start Broker b0)
      = run Broker Orion_update w b0).
Proof.
  unfold bind. fold (run Broker Orion_update w b0).
  destruct (run Broker Orion_update w b0) as [[[] | e] st1] eqn:Hrun; simpl.
  - split; [intros _ | discriminate].
    rewrite main_spec.
    pose proof (updates_run_any_broker Broker Orion_update w b0 (broker st1)) as Hu.
    rewrite Hrun, run_spec in Hu. simpl in Hu.
    destruct (load_all w (glob w pattern) []) as [[objects | e] evs]; simpl in *;
      rewrite !updates_app; simpl; now rewrite <- Hu.
  - split; [discriminate | reflexivity].
Qed.

Lemma main_twice_witness :
  fst (run Store store_update sensors_world []) = Ok tt
  /\ List.length
       (updates (log (snd (bind Store (main Store store_update sensors_world)
                             (fun _ => main Store store_update sensors_world)
                             (start Store [])))))
     = 2%nat.
Proof.
  assert (H : fst (run Store store_update sensors_world []) = Ok tt)
    by (vm_compute; reflexivity).
  split; [exact H|].
  rewrite (proj1 (main_twice Store store_update sensors_world []) H).
  vm_compute. reflexivity.
Defined.

(** ** When nothing is sent, and what is ignored *)

Lemma filter_nil_iff {A : Type} (f : A -> bool) (l : list A) :
  filter f l = [] <-> forall x, In x l -> f x = false.
Proof.
  induction l as [|a l IH]; simpl; [easy|].
  destruct (f a) eqn:Ea; split.
  - discriminate.
  - intros H. rewrite (H a (or_introl eq_refl)) in Ea. discriminate.
  - intros H x [<- | Hx]; [exact Ea | now apply IH].
  - intros H. apply IH. intros x Hx. apply H. now right.
Qed.

(** The discovery list is empty exactly when nothing is listed or nothing
    is selected. *)
Lemma glob_nil_iff (w : World) :
  glob w pattern = []
  <-> forall searchable children,
        lookup "json" (cwd w) = Some (Directory true searchable children) ->
        forall name, In name (map fst children) -> selected name = false.
Proof.
  rewrite glob_pattern_eq.
  destruct (lookup "json" (cwd w)) as [[? ? | [|] x children | ? ? | | |] |];
    try easy.
  split.
  - intros H x' children' E. inversion E; subst children'.
    apply filter_nil_iff. now apply map_eq_nil in H.
  - intros H.
    assert (E : filter selected (map fst children) = [])
      by (apply filter_nil_iff; now apply (H x)).
    now rewrite E.
Qed.

(** X5.  Discovery is empty exactly when [json] is not a directory of the
    working directory that the process may list, or holds no name the
    pattern selects; and the empty batch is what the broker gets in exactly
    these runs: a [json] that is a plain file, a directory the process may
    not list, or a directory of hidden files only, passes without a
    word. *)
Theorem empty_batch_iff_nothing_selected
  (Broker : Type) (Orion_update : list Document -> Broker -> Result unit * Broker)
  (w : World) (b0 : Broker) :
  (glob w pattern = []
   <-> forall searchable children,
         lookup "json" (cwd w) = Some (Directory true searchable children) ->
         forall name, In name (map fst children) -> selected name = false)
  /\ (updates (log (snd (run Broker Orion_update w b0))) = [[]]
      <-> glob w pattern = []).
Proof.
  split; [apply glob_nil_iff|].
  rewrite run_spec.
  destruct (load_all_cases w (glob w pattern) [])
    as [(ds & -> & Hf) | (before & p & after & e & Hg & Hb & Hp & ->)]; simpl.
  - rewrite updates_app, updates_file_events. simpl. split.
    + intros H. inversion H; subst ds. now inversion Hf.
    + intros H. rewrite H in Hf. now inversion Hf.
  - rewrite updates_file_events, Hg. split; [discriminate|].
    intros H. now destruct before.
Qed.

Lemma filter_map_fst (f : string -> bool) (l : list (string * Entry)) :
  filter f (map fst l) = map fst (filter (fun x => f (fst x)) l).
Proof.
  induction l as [|[n e] l IH]; [reflexivity|]. simpl.
  destruct (f n); simpl; now rewrite IH.
Qed.

Lemma lookup_filter (f : string -> bool) (name : string)
  (l : list (string * Entry)) :
  f name = true ->
  lookup name (filter (fun x => f (fst x)) l) = lookup name l.
Proof.
  intros Hf. induction l as [|[n e] l IH]; [reflexivity|]. simpl.
  destruct (f n) eqn:En; simpl.
  - now destruct (String.eqb n name).
  - destruct (String.eqb_spec n name) as [-> | _]; [congruence | exact IH].
Qed.

(** The entry a discovered path leads to is found among the selected
    entries. *)
Lemma entry_at_selected (w : World) (listable searchable : bool)
  (children : list (string * Entry)) (name : string) :
  lookup "json" (cwd w) = Some (Directory listable searchable children) ->
  valid_name name = true ->
  selected name = true ->
  entry_at w (os_path_join "json" name)
  = if searchable then
      match lookup name (selected_entries children) with
      | None => inl FileNotFoundError
      | Some e => inr e
      end
    else inl PermissionError.
Proof.
  intros Hj Hv Hs. rewrite (entry_at_child w name Hv), Hj.
  destruct searchable; [|reflexivity].
  unfold selected_entries. now rewrite (lookup_filter selected name children Hs).
Qed.

(** X6.  Entries of [json] that the pattern does not select (other
    extensions, hidden names, whatever lies below a subdirectory) have no
    part in a run: two worlds with the same interpreter settings whose
    [json] directories, under the same permissions, hold the same selected
    entries, in the same order, run alike, with the same outcome, log and
    broker state. *)
Theorem unselected_entries_are_ignored
  (Broker : Type) (Orion_update : list Document -> Broker -> Result unit * Broker)
  (w1 w2 : World) (b0 : Broker) (listable searchable : bool)
  (children1 children2 : list (string * Entry)) :
  lookup "json" (cwd w1) = Some (Directory listable searchable children1) ->
  lookup "json" (cwd w2) = Some (Directory listable searchable children2) ->
  preferred_encoding w1 = preferred_encoding w2 ->
  limits w1 = limits w2 ->
  (forall name, In name (map fst children1) -> valid_name name = true) ->
  selected_entries children1 = selected_entries children2 ->
  run Broker Orion_update w1 b0 = run Broker Orion_update w2 b0.
Proof.
  intros H1 H2 Henc Hlim Hvalid Hsel.
  assert (Hg : glob w1 pattern = glob w2 pattern).
  { rewrite !glob_pattern_eq, H1, H2. destruct listable; [|reflexivity].
    rewrite !filter_map_fst.
    fold (selected_entries children1) (selected_entries children2).
    now rewrite Hsel. }
  assert (He : forall p, In p (glob w1 pattern) -> entry_at w1 p = entry_at w2 p).
  { intros p. rewrite glob_pattern_eq, H1. destruct listable; [|easy].
    rewrite in_map_iff.
    intros (name & <- & Hin). apply filter_In in Hin as [Hin Hs].
    rewrite (entry_at_selected w1 _ _ children1 name H1 (Hvalid name Hin) Hs).
    rewrite (entry_at_selected w2 _ _ children2 name H2 (Hvalid name Hin) Hs).
    now rewrite Hsel. }
  rewrite !run_spec, <- Hg.
  now rewrite (load_all_ext w1 w2 (glob w1 pattern) []
                 (load_ext w1 w2 _ He Henc Hlim)).
Qed.

Lemma unselected_entries_are_ignored_witness :
  selected_entries
    [("README.md"%string, RegularFile true (json_text "about"));
     ("a.json"%string, RegularFile true (json_text "{'id':'1','type':'Sensor'}"));
     (".draft.json"%string, RegularFile true (json_text "{broken"));
     ("notes"%string,
      Directory true true
        [("deep.json"%string, RegularFile true (json_text "{broken"))]);
     ("b.json"%string, RegularFile true (json_text "{'id':'2','type':'Sensor'}"));
     ("C.JSON"%string, RegularFile false (json_text "{}"))]
  = [("a.json"%string, RegularFile true (json_text "{'id':'1','type':'Sensor'}"));
     ("b.json"%string, RegularFile true (json_text "{'id':'2','type':'Sensor'}"))]
  /\ run Store store_update cluttered_world []
     = run Store store_update sensors_world [].
Proof.
  split; [reflexivity|].
  apply (unselected_entries_are_ignored Store store_update
           cluttered_world sensors_world [] true true _ _
           eq_refl eq_refl eq_refl eq_refl).
  - intros name H. simpl in H.
    repeat (destruct H as [<- | H]; [reflexivity|]). destruct H.
  - reflexivity.
Defined.

(** ** The order of the directory *)



Lemma load_all_documents (w : World) (paths : list string) :
  forall acc,
    (forall p, In p paths -> exists d, load w p = Ok d) ->
    fst (load_all w paths acc) = Ok (acc ++ map (document_at w) paths).
Proof.
  induction paths as [|p paths IH]; intros acc Hall; simpl.
  - now rewrite app_nil_r.
  - destruct (Hall p (or_introl eq_refl)) as [d Hd].
    unfold document_at at 1. rewrite Hd.
    specialize (IH (acc ++ [d]) (fun q Hq => Hall q (or_intror Hq))).
    destruct (load_all w paths (acc ++ [d])) as [outcome evs]. simpl in *.
    now rewrite IH, <- app_assoc.
Qed.

Section OrderFacts.

Variable Broker : Type.
Variable Orion_update : list Document -> Broker -> Result unit * Broker.

(** The batches of a run: none when a discovered file does not load, and
    else the Documents of the discovered paths. *)
Lemma updates_run_cases (w : World) (b0 : Broker) :
  ((forall p, In p (glob w pattern) -> exists d, load w p = Ok d)
   /\ updates (log (snd (run Broker Orion_update w b0)))
      = [map (document_at w) (glob w pattern)])
  \/ ((exists p e, In p (glob w pattern) /\ load w p = Raise e)
      /\ updates (log (snd (run Broker Orion_update w b0))) = []).
Proof.
  rewrite run_spec.
  destruct (load_all_cases w (glob w pattern) [])
    as [(ds & Hl & Hf) | (before & p & after & e & Hg & Hb & Hp & ->)].
  - left.
    assert (Hall : forall p, In p (glob w pattern) -> exists d, load w p = Ok d)
      by (intros p Hp; exact (Forall2_In_l _ _ _ Hf p Hp)).
    split; [exact Hall|].
    pose proof (load_all_documents w (glob w pattern) [] Hall) as Hd.
    rewrite Hl in Hd |- *. simpl in Hd. injection Hd as E. subst ds. simpl.
    now rewrite updates_app, updates_file_events.
  - right. split.
    + exists p, e. split; [rewrite Hg; apply in_elt | exact Hp].
    + simpl. now rewrite updates_file_events.
Qed.

End OrderFacts.



(** ** Content: ASCII, blanks, byte order marks *)

Lemma utf_8_decode_ascii (l : list N) :
  forallb (fun c => c <? 128) l = true -> utf_8_decode l = Some l.
Proof.
  induction l as [|c l IH]; [reflexivity|]. simpl.
  intros H. apply andb_true_iff in H as [Hc Hl].
  now rewrite Hc, (IH Hl).
Qed.

Lemma forallb_map {A B : Type} (f : B -> bool) (g : A -> B) (l : list A) :
  forallb f (map g l) = forallb (fun x => f (g x)) l.
Proof. induction l as [|x l IH]; simpl; [reflexivity | now rewrite IH]. Qed.

(** The three codecs agree on ASCII bytes. *)
Lemma decode_ascii (enc : Encoding) (data : bytes) :
  forallb ascii_byte data = true -> decode enc data = Some (map Byte.to_N data).
Proof.
  intros H.
  assert (H' : forallb (fun c => c <? 128) (map Byte.to_N data) = true)
    by now rewrite forallb_map.
  destruct enc; unfold decode.
  - now apply utf_8_decode_ascii.
  - reflexivity.
  - unfold ascii_decode. now rewrite H'.
Qed.

(** X8.  Files of ASCII bytes are read alike whatever the text encoding in
    use: when every discovered file that opens holds ASCII bytes only, two
    worlds with the same working directory and the same limits of the
    interpreter run alike, with the same outcome, log and broker state. *)
Theorem ascii_files_load_alike
  (Broker : Type) (Orion_update : list Document -> Broker -> Result unit * Broker)
  (w1 w2 : World) (b0 : Broker) :
  cwd w1 = cwd w2 ->
  limits w1 = limits w2 ->
  (forall p data,
     In p (glob w1 pattern) ->
     entry_at w1 p = inr (RegularFile true data)
     \/ entry_at w1 p = inr (SpecialFile true data) ->
     forallb ascii_byte data = true) ->
  run Broker Orion_update w1 b0 = run Broker Orion_update w2 b0.
Proof.
  intros Hcwd Hlim Hascii.
  assert (Hg : glob w1 pattern = glob w2 pattern)
    by now rewrite !glob_pattern_eq, Hcwd.
  assert (He : forall p, entry_at w1 p = entry_at w2 p)
    by (intros p; unfold entry_at; now rewrite Hcwd).
  rewrite !run_spec, <- Hg.
  rewrite (load_all_ext w1 w2 (glob w1 pattern) []); [reflexivity|].
  intros p Hp. specialize (Hascii p).
  unfold load, file_events, open_, f_read, read_text. rewrite <- (He p), Hlim.
  destruct (entry_at w1 p) as [e | [[|] data | l x children | [|] data | | |]];
    try easy; cbn [f_encoding f_raw].
  - now rewrite !(decode_ascii _ data (Hascii data Hp (or_introl eq_refl))).
  - now rewrite !(decode_ascii _ data (Hascii data Hp (or_intror eq_refl))).
Qed.

Lemma ascii_files_load_alike_witness :
  cwd sensors_world = cwd sensors_world_ascii
  /\ preferred_encoding sensors_world = utf_8
  /\ preferred_encoding sensors_world_ascii = ascii_enc
  /\ run Store store_update sensors_world []
     = run Store store_update sensors_world_ascii [].
Proof.
  split; [reflexivity|]. split; [reflexivity|]. split; [reflexivity|].
  apply (ascii_files_load_alike Store store_update
           sensors_world sensors_world_ascii [] eq_refl eq_refl).
  intros p data [<- | [<- | []]] [H | H]; vm_compute in H;
    try discriminate; injection H as <-; vm_compute; reflexivity.
Defined.

Lemma is_ws_ascii (c : N) : is_ws c = true -> (c <? 128) = true.
Proof.
  unfold is_ws. rewrite !orb_true_iff, !N.eqb_eq.
  intros [[[-> | ->] | ->] | ->]; reflexivity.
Qed.

Lemma universal_newlines_blank_le (n : nat) :
  forall s, (List.length s <= n)%nat -> forallb is_ws s = true ->
    forallb is_ws (universal_newlines s) = true.
Proof.
  induction n as [|n IH]; intros s Hn Hs.
  - destruct s; [reflexivity | sizes].
  - destruct s as [|c r]; [reflexivity|]. simpl in Hs.
    apply andb_true_iff in Hs as [Hc Hr].
    destruct (N.eqb_spec c 13) as [-> | Hc13].
    + destruct r as [|d r']; [reflexivity|]. simpl in Hr.
      apply andb_true_iff in Hr as [Hd Hr'].
      destruct (N.eqb_spec d 10) as [-> | Hd10].
      * rewrite universal_newlines_cr_lf. simpl. apply IH; [sizes | exact Hr'].
      * rewrite (universal_newlines_cr_other d r' Hd10). simpl.
        apply (IH (d :: r')); [sizes|]. simpl. now rewrite Hd.
    + rewrite (universal_newlines_cons c r Hc13). simpl. rewrite Hc.
      apply IH; [sizes | exact Hr].
Qed.

Lemma skip_ws_blank (s : str) : forallb is_ws s = true -> skip_ws s = [].
Proof.
  induction s as [|c r IH]; [reflexivity|]. simpl.
  intros H. apply andb_true_iff in H as [Hc Hr]. now rewrite Hc, IH.
Qed.

(** A text of blanks is no JSON text. *)
Lemma json_loads_blank (lim : Limits) (s : str) :
  forallb is_ws s = true -> json_loads lim s = Raise JSONDecodeError.
Proof.
  intros H. unfold json_loads. rewrite (skip_ws_blank s H).
  destruct s as [|c r].
  - reflexivity.
  - simpl in H. apply andb_true_iff in H as [Hc _].
    assert (E : (c =? 65279) = false).
    { apply N.eqb_neq. intros ->. discriminate. }
    rewrite E. reflexivity.
Qed.

(** X9.  An empty file, or a file of blanks and line ends only, is no JSON
    text: when one is discovered, loading it raises [JSONDecodeError], the
    run ends with an exception and the broker is not called. *)
Theorem blank_file_aborts_the_run
  (Broker : Type) (Orion_update : list Document -> Broker -> Result unit * Broker)
  (w : World) (b0 : Broker) (p : string) (data : bytes) :
  In p (glob w pattern) ->
  entry_at w p = inr (RegularFile true data) ->
  forallb blank_byte data = true ->
  load_failure w p JSONDecodeError
  /\ (exists e, fst (run Broker Orion_update w b0) = Raise e)
  /\ updates (log (snd (run Broker Orion_update w b0))) = []
  /\ broker (snd (run Broker Orion_update w b0)) = b0.
Proof.
  intros Hin He Hblank.
  assert (Hascii : forallb ascii_byte data = true).
  { rewrite forallb_forall in Hblank |- *. intros c Hc.
    apply is_ws_ascii, (Hblank c Hc). }
  assert (Hload : load w p = Raise JSONDecodeError).
  { unfold load, open_, f_read, read_text. rewrite He. cbn [f_encoding f_raw].
    rewrite (decode_ascii _ data Hascii). cbn [option_map].
    rewrite json_loads_blank; [reflexivity|].
    apply (universal_newlines_blank_le (List.length (map Byte.to_N data))); [lia|].
    now rewrite forallb_map. }
  split; [now apply load_raise_iff|].
  exact (run_raises_if_some_fails Broker Orion_update w b0 p _ Hin Hload).
Qed.

Lemma blank_file_aborts_the_run_witness :
  In "json/empty.json"%string (glob blank_world pattern)
  /\ entry_at blank_world "json/empty.json"
     = inr (RegularFile true [Byte.x20; Byte.x0d; Byte.x0a])
  /\ load_failure blank_world "json/empty.json" JSONDecodeError
  /\ fst (run Store store_update blank_world []) = Raise JSONDecodeError
  /\ updates (log (snd (run Store store_update blank_world []))) = []
  /\ broker (snd (run Store store_update blank_world [])) = [].
Proof.
  assert (Hin : In "json/empty.json"%string (glob blank_world pattern))
    by (right; left; reflexivity).
  destruct (blank_file_aborts_the_run Store store_update blank_world []
              "json/empty.json" [Byte.x20; Byte.x0d; Byte.x0a]
              Hin eq_refl eq_refl)
    as (Hfail & _ & Hupd & Hbroker).
  split; [exact Hin|]. split; [reflexivity|]. split; [exact Hfail|].
  split; [vm_compute; reflexivity|]. split; [exact Hupd | exact Hbroker].
Defined.

(** X10.  A file that starts with the UTF-8 byte order mark does not load
    where the encoding in use is UTF-8, whatever follows the mark: the mark
    is decoded as a character and [json.loads] refuses it; the run ends with
    an exception and the broker is not called. *)
Theorem byte_order_mark_aborts_the_run
  (Broker : Type) (Orion_update : list Document -> Broker -> Result unit * Broker)
  (w : World) (b0 : Broker) (p : string) (rest : bytes) :
  preferred_encoding w = utf_8 ->
  In p (glob w pattern) ->
  entry_at w p = inr (RegularFile true (Byte.xef :: Byte.xbb :: Byte.xbf :: rest)) ->
  (load_failure w p JSONDecodeError \/ load_failure w p UnicodeDecodeError)
  /\ (exists e, fst (run Broker Orion_update w b0) = Raise e)
  /\ updates (log (snd (run Broker Orion_update w b0))) = []
  /\ broker (snd (run Broker Orion_update w b0)) = b0.
Proof.
  intros Henc Hin He.
  assert (Hload : load w p = Raise JSONDecodeError
                  \/ load w p = Raise UnicodeDecodeError).
  { unfold load, open_, f_read, read_text. rewrite He, Henc.
    cbn [f_encoding f_raw].
    change (decode utf_8 (Byte.xef :: Byte.xbb :: Byte.xbf :: rest))
      with (option_map (cons 65279) (utf_8_decode (map Byte.to_N rest))).
    destruct (utf_8_decode (map Byte.to_N rest)) as [t|]; cbn [option_map].
    - left. rewrite (universal_newlines_cons 65279 t) by discriminate.
      reflexivity.
    - now right. }
  split.
  - destruct Hload as [H | H]; [left | right]; now apply load_raise_iff.
  - destruct Hload as [H | H];
      exact (run_raises_if_some_fails Broker Orion_update w b0 p _ Hin H).
Qed.

Lemma byte_order_mark_aborts_the_run_witness :
  preferred_encoding bom_world = utf_8
  /\ In "json/a.json"%string (glob bom_world pattern)
  /\ json_loads (limits bom_world) (map Byte.to_N (json_text "{'id':'1'}"))
     = Ok (PyDict [(of_ascii "id", PyStr [49])])
  /\ fst (run Store store_update bom_world []) = Raise JSONDecodeError
  /\ updates (log (snd (run Store store_update bom_world []))) = []
  /\ broker (snd (run Store store_update bom_world [])) = [].
Proof.
  assert (Hin : In "json/a.json"%string (glob bom_world pattern))
    by (left; reflexivity).
  destruct (byte_order_mark_aborts_the_run Store store_update bom_world []
              "json/a.json" (json_text "{'id':'1'}") eq_refl Hin eq_refl)
    as (_ & _ & Hupd & Hbroker).
  split; [reflexivity|]. split; [exact Hin|].
  split; [vm_compute; reflexivity|]. split; [vm_compute; reflexivity|].
  split; [exact Hupd | exact Hbroker].
Defined.

(** ** Which exception *)








(** The exceptions of the limits and of the entries that are no files, each
    in a run of its own. *)
Lemma exceptions_of_sample_runs :
  fst (run Store store_update deep_array_world []) = Raise RecursionError
  /\ fst (run Store store_update long_integer_world []) = Raise ValueError
  /\ fst (run Store store_update unsearchable_world []) = Raise PermissionError
  /\ load refused_world "json/loop.json" = Raise (OSError ELOOP)
  /\ load refused_world "json/sock.json" = Raise (OSError ENXIO)
  /\ load refused_world "json/closed.json" = Raise PermissionError
  /\ fst (run Store store_update refused_world []) = Raise (OSError ELOOP).
Proof. repeat split; vm_compute; reflexivity. Qed.

(** ** No file twice *)






(** ** Objects with a repeated key *)

Lemma str_eqb_eq (a c : str) : str_eqb a c = true <-> a = c.
Proof.
  revert c. induction a as [|x a IH]; intros [|y c]; simpl; try easy.
  rewrite andb_true_iff, N.eqb_eq, IH. split.
  - now intros [-> ->].
  - intros H; inversion H; now subst.
Qed.

Lemma str_eqb_trans_false (k0 k key : str) :
  str_eqb k0 k = false -> str_eqb k key = true -> str_eqb k0 key = false.
Proof.
  intros H0 H1. apply str_eqb_eq in H1. subst key. exact H0.
Qed.

Lemma dict_get_setitem (d : list (str * Document)) (k key : str) (v : Document) :
  dict_get key (dict_setitem d k v)
  = if str_eqb k key then Some v else dict_get key d.
Proof.
  induction d as [|[k0 v0] d IH]; simpl; [reflexivity|].
  destruct (str_eqb k0 k) eqn:E0; simpl.
  - apply str_eqb_eq in E0. subst k0. now destruct (str_eqb k key).
  - rewrite IH. destruct (str_eqb k key) eqn:E1; [|reflexivity].
    now rewrite (str_eqb_trans_false k0 k key E0 E1).
Qed.

Lemma dict_get_app (key : str) (d1 d2 : list (str * Document)) :
  dict_get key (d1 ++ d2)
  = match dict_get key d1 with
    | Some v => Some v
    | None => dict_get key d2
    end.
Proof.
  induction d1 as [|[k v] d1 IH]; simpl; [reflexivity|].
  now destruct (str_eqb k key).
Qed.

(** [dict(pairs)] gives a key the value of its last pair. *)
Lemma dict_get_fold (pairs acc : list (str * Document)) (key : str) :
  dict_get key (fold_left (fun d kv => dict_setitem d (fst kv) (snd kv)) pairs acc)
  = match dict_get key (rev pairs) with
    | Some v => Some v
    | None => dict_get key acc
    end.
Proof.
  revert acc. induction pairs as [|[k v] pairs IH]; intros acc; simpl.
  - reflexivity.
  - rewrite IH, dict_get_app, dict_get_setitem. simpl.
    destruct (dict_get key (rev pairs)); [reflexivity|].
    now destruct (str_eqb k key).
Qed.

Lemma existsb_keys_setitem (x : str) (d : list (str * Document)) (k : str)
  (v : Document) :
  existsb (str_eqb x) (map fst (dict_setitem d k v))
  = existsb (str_eqb x) (map fst d) || str_eqb x k.
Proof.
  induction d as [|[k0 v0] d IH]; simpl.
  - now rewrite orb_false_r.
  - destruct (str_eqb k0 k) eqn:E0; simpl.
    + apply str_eqb_eq in E0. subst k0.
      destruct (str_eqb x k); simpl; [reflexivity | now rewrite orb_false_r].
    + rewrite IH. now rewrite orb_assoc.
Qed.

Lemma no_repeat_setitem (d : list (str * Document)) (k : str) (v : Document) :
  no_repeat (map fst d) = true ->
  no_repeat (map fst (dict_setitem d k v)) = true.
Proof.
  induction d as [|[k0 v0] d IH]; simpl; [reflexivity|].
  intros H. apply andb_true_iff in H as [Hk0 Hd].
  destruct (str_eqb k0 k) eqn:E0; simpl.
  - now rewrite Hk0, Hd.
  - rewrite existsb_keys_setitem, (IH Hd), E0.
    apply negb_true_iff in Hk0. now rewrite Hk0.
Qed.

Lemma values_setitem (P : Document -> bool) (d : list (str * Document)) (k : str)
  (v : Document) :
  forallb (fun kv => P (snd kv)) d = true -> P v = true ->
  forallb (fun kv => P (snd kv)) (dict_setitem d k v) = true.
Proof.
  intros Hd Hv. induction d as [|[k0 v0] d IH]; simpl in *.
  - now rewrite Hv.
  - apply andb_true_iff in Hd as [H0 Hd].
    destruct (str_eqb k0 k); simpl; [now rewrite Hv, Hd | now rewrite H0, IH].
Qed.

Lemma dict_of_pairs_unique (pairs : list (str * Document)) :
  forallb (fun kv => keys_unique (snd kv)) pairs = true ->
  keys_unique (PyDict (dict_of_pairs pairs)) = true.
Proof.
  unfold dict_of_pairs. intros H.
  assert (G : forall acc,
            no_repeat (map fst acc) = true ->
            forallb (fun kv => keys_unique (snd kv)) acc = true ->
            keys_unique
              (PyDict (fold_left (fun d kv => dict_setitem d (fst kv) (snd kv))
                         pairs acc)) = true).
  { induction pairs as [|[k v] pairs IH]; intros acc Hn Hv; simpl.
    - now rewrite Hn, Hv.
    - simpl in H. apply andb_true_iff in H as [Hkv Hrest].
      apply (IH Hrest).
      + now apply no_repeat_setitem.
      + now apply values_setitem. }
  now apply G.
Qed.

Lemma scan_atom_keys_unique (m : N) (s : str) (v : Document) (r : str) :
  scan_atom m s = Found v r -> keys_unique v = true.
Proof.
  unfold scan_atom, match_number.
  destruct (strip_prefix lit_null s); [now intros H; inversion H|].
  destruct (strip_prefix lit_true s); [now intros H; inversion H|].
  destruct (strip_prefix lit_false s); [now intros H; inversion H|].
  destruct (match_integer s) as [[integer r1]|].
  - destruct (match_frac r1) as [frac r2]. destruct (match_exp r2) as [exp r3].
    destruct frac; [destruct exp|]; try destruct (over_int_limit m integer);
      now intros H; inversion H.
  - destruct (strip_prefix lit_NaN s); [now intros H; inversion H|].
    destruct (strip_prefix lit_Infinity s); [now intros H; inversion H|].
    destruct (strip_prefix lit_neg_Infinity s); now intros H; inversion H.
Qed.

Lemma scan_keys_unique (m : N) (fuel : nat) :
  (forall room s v r, scan_once m fuel room s = Found v r -> keys_unique v = true)
  /\ (forall room pairs s v r,
        object_members m fuel room pairs s = Found v r ->
        forallb (fun kv => keys_unique (snd kv)) pairs = true ->
        keys_unique v = true)
  /\ (forall room values s v r,
        array_items m fuel room values s = Found v r ->
        forallb keys_unique values = true ->
        keys_unique v = true).
Proof.
  induction fuel as [|fuel (IHscan & IHobj & IHarr)]; [repeat split; discriminate|].
  split; [|split].
  - intros room s v r H. destruct s as [|c r0]; [discriminate|]. simpl in H.
    destruct (c =? 34).
    { destruct (scanstring r0) as [[chars r']|]; now inversion H. }
    destruct (c =? 123).
    { destruct room as [|room]; [discriminate|].
      destruct (skip_ws r0) as [|c1 r']; [discriminate|].
      destruct (c1 =? 125); [now inversion H|].
      destruct (c1 =? 34); [|discriminate]. now apply (IHobj _ _ _ _ _ H). }
    destruct (c =? 91).
    { destruct room as [|room]; [discriminate|].
      destruct (skip_ws r0) as [|c1 r']; [discriminate|].
      destruct (c1 =? 93); [now inversion H|]. now apply (IHarr _ _ _ _ _ H). }
    now apply scan_atom_keys_unique in H.
  - intros room pairs s v r H Hp. simpl in H.
    destruct (scanstring s) as [[key r1]|]; [|discriminate].
    destruct (skip_ws r1) as [|c1 r2]; [discriminate|].
    destruct (c1 =? 58); [|discriminate].
    destruct (scan_once m fuel room (skip_ws r2)) as [value r3|e] eqn:Ev;
      [|discriminate].
    assert (Hp' : forallb (fun kv => keys_unique (snd kv)) (pairs ++ [(key, value)])
                  = true).
    { rewrite forallb_app, Hp. simpl. now rewrite (IHscan _ _ _ _ Ev). }
    destruct (skip_ws r3) as [|c2 r4]; [discriminate|].
    destruct (c2 =? 125).
    { inversion H; subst. now apply dict_of_pairs_unique. }
    destruct (c2 =? 44); [|discriminate].
    destruct (skip_ws r4) as [|c3 r5]; [discriminate|].
    destruct (c3 =? 34); [|discriminate]. now apply (IHobj _ _ _ _ _ H).
  - intros room values s v r H Hv. simpl in H.
    destruct (scan_once m fuel room s) as [value r1|e] eqn:Ev; [|discriminate].
    assert (Hv' : forallb keys_unique (values ++ [value]) = true).
    { rewrite forallb_app, Hv. simpl. now rewrite (IHscan _ _ _ _ Ev). }
    destruct (skip_ws r1) as [|c1 r2]; [discriminate|].
    destruct (c1 =? 93). { inversion H; subst. exact Hv'. }
    destruct (c1 =? 44); [|discriminate]. now apply (IHarr _ _ _ _ _ H).
Qed.

Lemma json_loads_keys_unique (lim : Limits) (text : str) (d : Document) :
  json_loads lim text = Ok d -> keys_unique d = true.
Proof.
  unfold json_loads.
  destruct (match text with c :: _ => c =? 65279 | [] => false end);
    [discriminate|].
  destruct (scan_once (max_str_digits lim) (fuel_for text) (max_nesting lim)
              (skip_ws text)) as [obj r|e] eqn:Es; [|discriminate].
  destruct (skip_ws r); [|discriminate]. intros H; inversion H; subst.
  destruct (scan_keys_unique (max_str_digits lim) (fuel_for text)) as (Hscan & _ & _).
  exact (Hscan _ _ _ _ Es).
Qed.

(** X13.  No object that goes to the broker has a key twice, at any depth:
    where a file repeats a key in an object, the object that is sent has
    the key once, at the place of its first occurrence and with the value
    of its last. *)
Theorem sent_objects_have_unique_keys
  (Broker : Type) (Orion_update : list Document -> Broker -> Result unit * Broker)
  (w : World) (b0 : Broker) :
  (forall batch d,
     In batch (updates (log (snd (run Broker Orion_update w b0)))) ->
     In d batch -> keys_unique d = true)
  /\ (forall pairs key,
        dict_get key (dict_of_pairs pairs) = dict_get key (rev pairs))
  /\ (forall pairs key value,
        map fst (dict_setitem pairs key value)
        = if existsb (str_eqb key) (map fst pairs) then map fst pairs
          else map fst pairs ++ [key]).
Proof.
  split; [|split].
  - intros batch d Hbatch Hd.
    destruct (updates_run_cases Broker Orion_update w b0)
      as [[Hall Hu] | [_ Hu]]; rewrite Hu in Hbatch; [|easy].
    destruct Hbatch as [<- | []].
    apply in_map_iff in Hd as (p & <- & Hp).
    destruct (Hall p Hp) as [d Hload]. unfold document_at. rewrite Hload.
    apply load_iff_content in Hload as (f & text & _ & _ & Hj).
    now apply json_loads_keys_unique in Hj.
  - intros pairs key. unfold dict_of_pairs. rewrite dict_get_fold.
    now destruct (dict_get key (rev pairs)).
  - intros pairs key value. induction pairs as [|[k v] pairs IH]; simpl.
    + reflexivity.
    + destruct (str_eqb k key) eqn:E.
      * apply str_eqb_eq in E. subst k.
        assert (R : str_eqb key key = true) by now apply str_eqb_eq.
        now rewrite R.
      * assert (R : str_eqb key k = false).
        { destruct (str_eqb key k) eqn:E'; [|reflexivity].
          apply str_eqb_eq in E'. subst k.
          assert (T : str_eqb key key = true) by now apply str_eqb_eq.
          congruence. }
        rewrite R. simpl. rewrite IH.
        now destruct (existsb (str_eqb key) (map fst pairs)).
Qed.

Lemma sent_objects_have_unique_keys_witness :
  updates (log (snd (run Store store_update repeated_key_world [])))
  = [[PyDict [(of_ascii "id", PyStr [50]);
              (of_ascii "type", PyStr (of_ascii "Sensor"))]]]
  /\ keys_unique
       (PyDict [(of_ascii "id", PyStr [50]);
                (of_ascii "type", PyStr (of_ascii "Sensor"))]) = true.
Proof.
  assert (Hu : updates (log (snd (run Store store_update repeated_key_world [])))
               = [[PyDict [(of_ascii "id", PyStr [50]);
                           (of_ascii "type", PyStr (of_ascii "Sensor"))]]])
    by (vm_compute; reflexivity).
  split; [exact Hu|].
  apply (proj1 (sent_objects_have_unique_keys Store store_update
                  repeated_key_world [])
           [PyDict [(of_ascii "id", PyStr [50]);
                    (of_ascii "type", PyStr (of_ascii "Sensor"))]]).
  - rewrite Hu. now left.
  - now left.
Defined.

(** ** Blanks around the value *)

Lemma blank_head_cases (t : str) :
  blank_head t = true -> t = [] \/ exists c t', t = c :: t' /\ is_ws c = true.
Proof.
  destruct t as [|c t']; [now left|]. intros H. right. now exists c, t'.
Qed.

Lemma is_ws_values (c : N) :
  is_ws c = true -> c = 32 \/ c = 9 \/ c = 10 \/ c = 13.
Proof.
  unfold is_ws. rewrite !orb_true_iff, !N.eqb_eq. tauto.
Qed.

Lemma skip_ws_app (s t : str) (c : N) (r : str) :
  skip_ws s = c :: r -> skip_ws (s ++ t) = c :: r ++ t.
Proof.
  induction s as [|x s IH]; simpl; [discriminate|].
  destruct (is_ws x); [exact IH|].
  intros H; inversion H; subst. reflexivity.
Qed.

Lemma skip_ws_nil_blank (s : str) : skip_ws s = [] -> forallb is_ws s = true.
Proof.
  induction s as [|x s IH]; simpl; [reflexivity|].
  destruct (is_ws x); [exact IH | discriminate].
Qed.

Lemma skip_ws_blank_app (pre s : str) :
  forallb is_ws pre = true -> skip_ws (pre ++ s) = skip_ws s.
Proof.
  induction pre as [|x pre IH]; simpl; [reflexivity|].
  intros H. apply andb_true_iff in H as [Hx Hpre]. now rewrite Hx, IH.
Qed.

Lemma span_digits_app (s t : str) :
  blank_head t = true ->
  span_digits (s ++ t) = map_snd (fun r => r ++ t) (span_digits s).
Proof.
  intros Ht. induction s as [|c r IH]; simpl.
  - destruct (blank_head_cases t Ht) as [-> | (c & t' & -> & Hc)]; [reflexivity|].
    simpl. destruct (is_ws_values c Hc) as [-> | [-> | [-> | ->]]]; reflexivity.
  - destruct (is_digit c); [|reflexivity].
    rewrite IH. now destruct (span_digits r).
Qed.

Lemma strip_prefix_app (lit s t : str) :
  forallb (fun a => negb (is_ws a)) lit = true ->
  blank_head t = true ->
  strip_prefix lit (s ++ t) = option_map (fun r => r ++ t) (strip_prefix lit s).
Proof.
  intros Hlit Ht. revert s. induction lit as [|a lit IH]; intros s.
  - reflexivity.
  - simpl in Hlit. apply andb_true_iff in Hlit as [Ha Hlit].
    apply negb_true_iff in Ha.
    destruct s as [|b s']; simpl.
    + destruct (blank_head_cases t Ht) as [-> | (c & t' & -> & Hc)]; [reflexivity|].
      destruct (N.eqb_spec a c) as [-> | _]; [congruence | reflexivity].
    + destruct (a =? b); [now apply IH | reflexivity].
Qed.

Lemma match_digits_app (s t : str) :
  blank_head t = true ->
  match_digits (s ++ t) = map_rest (fun r => r ++ t) (match_digits s).
Proof.
  intros Ht. destruct s as [|c r]; simpl.
  - destruct (blank_head_cases t Ht) as [-> | (c & t' & -> & Hc)]; [reflexivity|].
    simpl. destruct (is_ws_values c Hc) as [-> | [-> | [-> | ->]]]; reflexivity.
  - destruct (c =? 48); [reflexivity|].
    destruct (is_digit c); [|reflexivity].
    rewrite (span_digits_app r t Ht). now destruct (span_digits r).
Qed.

Lemma match_integer_app (s t : str) :
  blank_head t = true ->
  match_integer (s ++ t) = map_rest (fun r => r ++ t) (match_integer s).
Proof.
  intros Ht. destruct s as [|c r].
  - destruct (blank_head_cases t Ht) as [-> | (c & t' & -> & Hc)]; [reflexivity|].
    simpl. destruct (is_ws_values c Hc) as [-> | [-> | [-> | ->]]]; reflexivity.
  - unfold match_integer. cbn [app].
    destruct (c =? 45).
    + rewrite (match_digits_app r t Ht).
      now destruct (match_digits r) as [[ds r']|].
    + exact (match_digits_app (c :: r) t Ht).
Qed.

Lemma match_frac_app (s t : str) :
  blank_head t = true ->
  match_frac (s ++ t) = map_snd (fun r => r ++ t) (match_frac s).
Proof.
  intros Ht. destruct s as [|c r]; simpl.
  - destruct (blank_head_cases t Ht) as [-> | (c & t' & -> & Hc)]; [reflexivity|].
    simpl. destruct (is_ws_values c Hc) as [-> | [-> | [-> | ->]]]; reflexivity.
  - destruct (c =? 46); [|reflexivity].
    rewrite (span_digits_app r t Ht).
    now destruct (span_digits r) as [[|d ds] r'].
Qed.

Lemma match_sign_app (s t : str) :
  blank_head t = true ->
  match_sign (s ++ t) = map_snd (fun r => r ++ t) (match_sign s).
Proof.
  intros Ht. destruct s as [|c r]; simpl.
  - destruct (blank_head_cases t Ht) as [-> | (c & t' & -> & Hc)]; [reflexivity|].
    simpl. destruct (is_ws_values c Hc) as [-> | [-> | [-> | ->]]]; reflexivity.
  - now destruct ((c =? 45) || (c =? 43)).
Qed.

Lemma match_exp_app (s t : str) :
  blank_head t = true ->
  match_exp (s ++ t) = map_snd (fun r => r ++ t) (match_exp s).
Proof.
  intros Ht. destruct s as [|c r]; simpl.
  - destruct (blank_head_cases t Ht) as [-> | (c & t' & -> & Hc)]; [reflexivity|].
    simpl. destruct (is_ws_values c Hc) as [-> | [-> | [-> | ->]]]; reflexivity.
  - destruct ((c =? 101) || (c =? 69)); [|reflexivity].
    rewrite (match_sign_app r t Ht).
    destruct (match_sign r) as [sign r1]. unfold map_snd at 1. simpl.
    rewrite (span_digits_app r1 t Ht).
    now destruct (span_digits r1) as [[|d ds] r'].
Qed.

Lemma match_number_app (m : N) (s t : str) :
  blank_head t = true ->
  match_number m (s ++ t)
  = option_map (map_scan (fun r => r ++ t)) (match_number m s).
Proof.
  intros Ht. unfold match_number. rewrite (match_integer_app s t Ht).
  destruct (match_integer s) as [[integer r1]|]; [|reflexivity]. simpl.
  rewrite (match_frac_app r1 t Ht).
  destruct (match_frac r1) as [frac r2]. unfold map_snd at 1. simpl.
  rewrite (match_exp_app r2 t Ht).
  destruct (match_exp r2) as [exp r3]. unfold map_snd. simpl.
  destruct frac; [destruct exp|]; try reflexivity.
  now destruct (over_int_limit m integer).
Qed.

Lemma scan_atom_app (m : N) (s t : str) :
  blank_head t = true ->
  scan_atom m (s ++ t) = map_scan (fun r => r ++ t) (scan_atom m s).
Proof.
  intros Ht. unfold scan_atom.
  rewrite !(fun lit H => strip_prefix_app lit s t H Ht) by reflexivity.
  rewrite (match_number_app m s t Ht).
  destruct (strip_prefix lit_null s); [reflexivity|].
  destruct (strip_prefix lit_true s); [reflexivity|].
  destruct (strip_prefix lit_false s); [reflexivity|].
  destruct (match_number m s) as [res|]; [reflexivity|].
  destruct (strip_prefix lit_NaN s); [reflexivity|].
  destruct (strip_prefix lit_Infinity s); [reflexivity|].
  destruct (strip_prefix lit_neg_Infinity s); reflexivity.
Qed.

Lemma scanstring_app_le (t : str) (n : nat) :
  forall s chars r, (List.length s <= n)%nat ->
    scanstring s = Some (chars, r) ->
    scanstring (s ++ t) = Some (chars, r ++ t).
Proof.
  induction n as [|n IH]; intros s chars r Hn H.
  - destruct s; [discriminate | sizes].
  - destruct s as [|c s1]; [discriminate|]. cbn [List.length] in Hn.
    simpl in H |- *.
    assert (G : forall x u chars r,
               (List.length u <= n)%nat ->
               prepend x (scanstring u) = Some (chars, r) ->
               prepend x (scanstring (u ++ t)) = Some (chars, r ++ t)).
    { intros x u chars0 r0 Hu H0. apply prepend_some in H0 as (chars' & Hs & ->).
      now rewrite (IH u chars' r0 Hu Hs). }
    destruct (c =? 34). { now inversion H. }
    destruct (c =? 92).
    + destruct s1 as [|e s2]; [discriminate|]. cbn [List.length] in Hn.
      cbn [app].
      destruct (e =? 117).
      * destruct s2 as [|h1 [|h2 [|h3 [|h4 s3]]]]; try discriminate.
        cbn [List.length] in Hn. cbn [app].
        destruct (decode_uXXXX h1 h2 h3 h4) as [uni|]; [|discriminate].
        assert (F : forall chars r,
                   prepend uni (scanstring s3) = Some (chars, r) ->
                   prepend uni (scanstring (s3 ++ t)) = Some (chars, r ++ t)).
        { intros chars0 r0 H0. apply G; [lia | exact H0]. }
        destruct (is_high_surrogate uni); [|now apply F].
        destruct s3 as [|b1 s4]; [discriminate|].
        destruct s4 as [|b2 s5].
        { specialize (F _ _ H). cbn [app] in F |- *.
          destruct t as [|b2 t']; [exact F|].
          destruct (N.eqb_spec b1 92) as [-> | Hb]; [discriminate|].
          exact F. }
        cbn [app]. specialize (F chars r). cbn [app] in F.
        destruct ((b1 =? 92) && (b2 =? 117)); [|now apply F].
        destruct s5 as [|k1 [|k2 [|k3 [|k4 s6]]]]; try discriminate.
        cbn [app] in F |- *. cbn [List.length] in Hn.
        destruct (decode_uXXXX k1 k2 k3 k4) as [uni2|]; [|discriminate].
        destruct (is_low_surrogate uni2); [|now apply F].
        apply G; [lia | exact H].
      * destruct (backslash e); [|discriminate]. apply G; [lia | exact H].
    + destruct (c <? 32); [discriminate|]. apply G; [lia | exact H].
Qed.

Lemma scanstring_app (s t chars r : str) :
  scanstring s = Some (chars, r) -> scanstring (s ++ t) = Some (chars, r ++ t).
Proof. now apply (scanstring_app_le t (List.length s)). Qed.

(** The descent on a text followed by blanks: the same value, and the
    blanks after the rest. *)
Lemma scan_app (m : N) (t : str) (fuel : nat) :
  blank_head t = true ->
  (forall room s v r,
     scan_once m fuel room s = Found v r ->
     scan_once m fuel room (s ++ t) = Found v (r ++ t))
  /\ (forall room pairs s v r,
        object_members m fuel room pairs s = Found v r ->
        object_members m fuel room pairs (s ++ t) = Found v (r ++ t))
  /\ (forall room values s v r,
        array_items m fuel room values s = Found v r ->
        array_items m fuel room values (s ++ t) = Found v (r ++ t)).
Proof.
  intros Ht.
  induction fuel as [|fuel (IHscan & IHobj & IHarr)]; [repeat split; discriminate|].
  split; [|split].
  - intros room s v r H. destruct s as [|c r0]; [discriminate|].
    cbn [app]. simpl in H |- *.
    destruct (c =? 34).
    { destruct (scanstring r0) as [[chars r']|] eqn:Es; [|discriminate].
      inversion H; subst. now rewrite (scanstring_app _ t _ _ Es). }
    destruct (c =? 123).
    { destruct room as [|room]; [discriminate|].
      destruct (skip_ws r0) as [|c1 r'] eqn:Ew; [discriminate|].
      rewrite (skip_ws_app r0 t c1 r' Ew).
      destruct (c1 =? 125); [now inversion H|].
      destruct (c1 =? 34); [now apply IHobj | discriminate]. }
    destruct (c =? 91).
    { destruct room as [|room]; [discriminate|].
      destruct (skip_ws r0) as [|c1 r'] eqn:Ew; [discriminate|].
      rewrite (skip_ws_app r0 t c1 r' Ew).
      destruct (c1 =? 93); [now inversion H|].
      exact (IHarr _ _ _ _ _ H). }
    change (c :: r0 ++ t) with ((c :: r0) ++ t).
    now rewrite (scan_atom_app m (c :: r0) t Ht), H.
  - intros room pairs s v r H. simpl in H |- *.
    destruct (scanstring s) as [[key r1]|] eqn:Es; [|discriminate].
    rewrite (scanstring_app _ t _ _ Es).
    destruct (skip_ws r1) as [|c1 r2] eqn:Ew1; [discriminate|].
    rewrite (skip_ws_app r1 t c1 r2 Ew1).
    destruct (c1 =? 58); [|discriminate].
    destruct (scan_once m fuel room (skip_ws r2)) as [value r3|e] eqn:Ev;
      [|discriminate].
    destruct (skip_ws r2) as [|c0 r2'] eqn:Ew2.
    { destruct fuel; discriminate. }
    rewrite (skip_ws_app r2 t c0 r2' Ew2).
    change (c0 :: r2' ++ t) with ((c0 :: r2') ++ t).
    rewrite (IHscan _ _ _ _ Ev).
    destruct (skip_ws r3) as [|c2 r4] eqn:Ew3; [discriminate|].
    rewrite (skip_ws_app r3 t c2 r4 Ew3).
    destruct (c2 =? 125); [now inversion H|].
    destruct (c2 =? 44); [|discriminate].
    destruct (skip_ws r4) as [|c3 r5] eqn:Ew4; [discriminate|].
    rewrite (skip_ws_app r4 t c3 r5 Ew4).
    destruct (c3 =? 34); [now apply IHobj | discriminate].
  - intros room values s v r H. simpl in H |- *.
    destruct (scan_once m fuel room s) as [value r1|e] eqn:Ev; [|discriminate].
    rewrite (IHscan _ _ _ _ Ev).
    destruct (skip_ws r1) as [|c1 r2] eqn:Ew1; [discriminate|].
    rewrite (skip_ws_app r1 t c1 r2 Ew1).
    destruct (c1 =? 93); [now inversion H|].
    destruct (c1 =? 44); [|discriminate].
    destruct (skip_ws r2) as [|c0 r2'] eqn:Ew2.
    { destruct fuel as [|[|fuel']]; discriminate. }
    rewrite (skip_ws_app r2 t c0 r2' Ew2).
    change (c0 :: r2' ++ t) with ((c0 :: r2') ++ t).
    now apply IHarr.
Qed.

(** Blanks before and after a JSON text do not change its value. *)
Lemma json_loads_padded (lim : Limits) (pre text post : str) (d : Document) :
  forallb is_ws pre = true ->
  forallb is_ws post = true ->
  json_loads lim text = Ok d ->
  json_loads lim (pre ++ text ++ post) = Ok d.
Proof.
  intros Hpre Hpost. unfold json_loads. intros H.
  destruct (match text with c :: _ => c =? 65279 | [] => false end) eqn:Hbom;
    [discriminate|].
  destruct (scan_once (max_str_digits lim) (fuel_for text) (max_nesting lim)
              (skip_ws text)) as [obj r|e] eqn:Es; [|discriminate].
  destruct (skip_ws r) eqn:Er; [|discriminate]. inversion H; subst obj.
  destruct (skip_ws text) as [|c0 r0] eqn:Ew.
  { unfold fuel_for in Es. rewrite Nat.add_1_r in Es. discriminate. }
  assert (Hhead : blank_head post = true).
  { destruct post as [|c post']; [reflexivity|]. simpl in Hpost |- *.
    now apply andb_true_iff in Hpost as [Hc _]. }
  assert (Hb : match pre ++ text ++ post with
               | c :: _ => c =? 65279
               | [] => false
               end = false).
  { destruct pre as [|x pre'].
    - destruct text as [|c text']; [discriminate | exact Hbom].
    - simpl in Hpre |- *. apply andb_true_iff in Hpre as [Hx _].
      destruct (is_ws_values x Hx) as [-> | [-> | [-> | ->]]]; reflexivity. }
  rewrite Hb, (skip_ws_blank_app pre _ Hpre), (skip_ws_app text post c0 r0 Ew).
  destruct (scan_app (max_str_digits lim) post (fuel_for text) Hhead)
    as (Hscan & _ & _).
  apply Hscan in Es.
  assert (Hlen : (List.length ((c0 :: r0) ++ post)
                  <= List.length (pre ++ text ++ post))%nat).
  { pose proof (skip_ws_length text) as Hl. rewrite Ew in Hl.
    rewrite !length_app in *. lia. }
  change (c0 :: r0 ++ post) with ((c0 :: r0) ++ post).
  rewrite (fuel_for_enough _ _ _ (pre ++ text ++ post) _ _ _ Hlen Es).
  rewrite (skip_ws_blank_app r post (skip_ws_nil_blank r Er)).
  now rewrite (skip_ws_blank post Hpost).
Qed.

(** X14.  Blanks and line ends before and after the JSON value of a file,
    and the style of its line ends (LF, CR LF or CR), do not change what is
    loaded: a file whose decoded text is, between blanks, a JSON text that
    [json.loads] accepts in this interpreter loads to the value of that JSON
    text, in any encoding. *)
Theorem blanks_and_line_ends_do_not_matter
  (Broker : Type) (w : World) (path : string) (data : bytes)
  (pre text post : str) (d : Document) (st : State Broker) :
  entry_at w path = inr (RegularFile true data) ->
  decode (preferred_encoding w) data = Some (pre ++ text ++ post) ->
  forallb is_ws pre = true ->
  forallb is_ws post = true ->
  json_loads (limits w) text = Ok d ->
  fst (with_ Broker (open_file Broker w path) (f_close Broker)
         (json_load Broker (limits w)) st)
  = Ok d.
Proof.
  intros He Hd Hpre Hpost Hj. rewrite with_block_spec.
  unfold load, open_, f_read, read_text. rewrite He.
  cbn [f_encoding f_raw fst]. rewrite Hd. cbn [option_map].
  now rewrite (json_loads_universal_newlines _ _ d
                 (json_loads_padded _ pre text post d Hpre Hpost Hj)).
Qed.

Lemma blanks_and_line_ends_do_not_matter_witness :
  entry_at padded_world "json/a.json" = inr (RegularFile true padded_data)
  /\ decode (preferred_encoding padded_world) padded_data
     = Some ([13; 10; 32] ++ map Byte.to_N (json_text "{'id':'1'}") ++ [13; 10; 13; 10])
  /\ json_loads (limits padded_world) (map Byte.to_N (json_text "{'id':'1'}"))
     = Ok (PyDict [(of_ascii "id", PyStr [49])])
  /\ fst (with_ Store (open_file Store padded_world "json/a.json") (f_close Store)
            (json_load Store (limits padded_world)) (start Store []))
     = Ok (PyDict [(of_ascii "id", PyStr [49])]).
Proof.
  assert (Hd : decode (preferred_encoding padded_world) padded_data
               = Some ([13; 10; 32] ++ map Byte.to_N (json_text "{'id':'1'}")
                       ++ [13; 10; 13; 10]))
    by (vm_compute; reflexivity).
  assert (Hj : json_loads (limits padded_world)
                 (map Byte.to_N (json_text "{'id':'1'}"))
               = Ok (PyDict [(of_ascii "id", PyStr [49])]))
    by (vm_compute; reflexivity).
  split; [reflexivity|]. split; [exact Hd|]. split; [exact Hj|].
  exact (blanks_and_line_ends_do_not_matter Store padded_world "json/a.json"
           padded_data _ _ _ _ (start Store []) eq_refl Hd eq_refl eq_refl Hj).
Defined.
